(** * Content extractor: text normalisation, boilerplate removal, batch loop

    A shallow embedding of [app.py].  Python strings are sequences of Unicode
    code points.  The HTML parser, the HTTP client, the progress display and
    the clock are outside the program: they are the fields of [Externals],
    and the functions that call them take one as a parameter. *)

From Stdlib Require Import Ascii String.
From Stdlib Require Import List NArith ZArith QArith Bool Lia.
Import ListNotations.
Close Scope Q_scope.

Set Implicit Arguments.

(** ** Python strings *)

Module Py.

(** A code point. *)
Definition char := N.

(** A [str]: [len] is the number of code points. *)
Definition str := list char.

(** A literal written in ASCII. *)
Definition lit (s : string) : str :=
  map N_of_ascii (list_ascii_of_string s).

Definition len (s : str) : Z := Z.of_nat (length s).

Definition LF : char := 10%N.
Definition CR : char := 13%N.
Definition TAB : char := 9%N.
Definition SP : char := 32%N.

Definition str_eqb (a b : str) : bool :=
  if list_eq_dec N.eq_dec a b then true else false.

(** [str.isspace] on one code point: the characters [str.strip] removes. *)
Definition isspace (c : char) : bool :=
  ((9 <=? c) && (c <=? 13) || (28 <=? c) && (c <=? 32)
   || (c =? 133) || (c =? 160) || (c =? 5760)
   || (8192 <=? c) && (c <=? 8202)
   || (c =? 8232) || (c =? 8233) || (c =? 8239) || (c =? 8287)
   || (c =? 12288))%N.

Fixpoint lstrip (s : str) : str :=
  match s with
  | [] => []
  | c :: s' => if isspace c then lstrip s' else s
  end.

Fixpoint rstrip (s : str) : str :=
  match s with
  | [] => []
  | c :: s' =>
      match rstrip s' with
      | [] => if isspace c then [] else [c]
      | r => c :: r
      end
  end.

(** [s.strip()] *)
Definition strip (s : str) : str := rstrip (lstrip s).

(** [sep.join(pieces)] *)
Fixpoint join (sep : str) (pieces : list str) : str :=
  match pieces with
  | [] => []
  | [p] => p
  | p :: rest => p ++ sep ++ join sep rest
  end.

End Py.

Import Py.

(** ** The three substitutions of [normalize_whitespace] *)

(** [re.sub(r"\r\n?", "\n", text)]: each carriage return, together with a
    line feed directly after it when there is one, becomes one line feed. *)
Fixpoint sub_crlf (text : str) : str :=
  match text with
  | [] => []
  | c :: rest =>
      if (c =? CR)%N then
        LF :: match rest with
              | d :: rest' => if (d =? LF)%N then sub_crlf rest' else sub_crlf rest
              | [] => sub_crlf rest
              end
      else c :: sub_crlf rest
  end.

(** [re.sub] for a pattern [[cls]{min,}]: scanning from the left, [run] holds
    the characters of the class read since the last character outside it.  A
    maximal run of at least [min] characters is the match and is replaced by
    [repl]; a shorter one is not matched and stays. *)
Definition flush_run (min : nat) (repl run : str) : str :=
  if (min <=? length run)%nat then repl else run.

Fixpoint sub_runs (cls : char -> bool) (min : nat) (repl run text : str) : str :=
  match text with
  | [] => flush_run min repl run
  | c :: rest =>
      if cls c then sub_runs cls min repl (run ++ [c]) rest
      else flush_run min repl run ++ c :: sub_runs cls min repl [] rest
  end.

Definition is_blank (c : char) : bool := ((c =? SP) || (c =? TAB))%N.
Definition is_lf (c : char) : bool := (c =? LF)%N.

(** [re.sub(r"[ \t]+", " ", text)] *)
Definition sub_blanks (text : str) : str := sub_runs is_blank 1 [SP] [] text.

(** [re.sub(r"\n{3,}", "\n\n", text)] *)
Definition sub_newlines (text : str) : str := sub_runs is_lf 3 [LF; LF] [] text.

Definition normalize_whitespace (text : str) : str :=
  let text := sub_crlf text in
  let text := sub_blanks text in
  let text := sub_newlines text in
  strip text.

(** ** The parse tree *)

Module Soup.

(** An attribute value: a string, or for a multi-valued attribute such as
    [class] the list of its whitespace-separated values. *)
Inductive attr_value :=
| AttrStr (s : str)
| AttrList (l : list str).

(** A node of the tree.  [uid] stands for the identity of the Python object.
    [OtherString] covers the string classes [get_text] leaves out (comments,
    doctype and the like). *)
#[warnings="-register-all"]
Inductive node :=
| NavigableString (s : str)
| OtherString (s : str)
| Tag (uid : nat) (name : str) (attrs : list (str * attr_value))
      (contents : list node).

Definition is_tag (n : node) : bool :=
  match n with Tag _ _ _ _ => true | _ => false end.

Definition tag_uid (n : node) : option nat :=
  match n with Tag u _ _ _ => Some u | _ => None end.

Definition tag_name (n : node) : option str :=
  match n with Tag _ nm _ _ => Some nm | _ => None end.

Definition tag_attrs (n : node) : list (str * attr_value) :=
  match n with Tag _ _ a _ => a | _ => [] end.

Definition contents (n : node) : list node :=
  match n with Tag _ _ _ cs => cs | _ => [] end.

(** [tag.get(key)] *)
Fixpoint attrs_get (key : str) (attrs : list (str * attr_value))
  : option attr_value :=
  match attrs with
  | [] => None
  | (k, v) :: rest => if str_eqb k key then Some v else attrs_get key rest
  end.

(** A node followed by everything below it, in document order. *)
Fixpoint self_and_descendants (n : node) : list node :=
  match n with
  | Tag _ _ _ cs => n :: flat_map self_and_descendants cs
  | _ => [n]
  end.

(** [tag.descendants] *)
Definition descendants (n : node) : list node :=
  flat_map self_and_descendants (contents n).

Definition has_name (tag_name' : str) (n : node) : bool :=
  match tag_name n with
  | Some nm => str_eqb nm tag_name'
  | None => false
  end.

(** [tag.find_all(tag_name)] *)
Definition find_all (tag_name' : str) (n : node) : list node :=
  filter (has_name tag_name') (descendants n).

(** [tag.find(tag_name)], which is what [soup.title] and [soup.body] are. *)
Definition find (tag_name' : str) (n : node) : option node :=
  hd_error (find_all tag_name' n).

(** How a search matches an attribute value against a compiled pattern: a
    missing attribute never matches; a multi-valued one matches when one of
    its values does, or when the values joined by spaces do. *)
Definition matches (value : option attr_value) (pattern : str -> bool) : bool :=
  match value with
  | None => false
  | Some (AttrStr s) => pattern s
  | Some (AttrList l) => existsb pattern l || pattern (join [SP] l)
  end.

(** [tag.find_all(attrs={attr: pattern})] *)
Definition find_all_attrs (attr : str) (pattern : str -> bool) (n : node)
  : list node :=
  filter (fun t => is_tag t && matches (attrs_get attr (tag_attrs t)) pattern)
         (descendants n).

Definition is_object (u : nat) (n : node) : bool :=
  match n with Tag v _ _ _ => Nat.eqb v u | _ => false end.

(** The tree under [root] once the object [u] below it has been detached. *)
Fixpoint detach (u : nat) (root : node) : node :=
  match root with
  | Tag v nm a cs =>
      Tag v nm a
        ((fix over (l : list node) : list node :=
            match l with
            | [] => []
            | c :: l' => if is_object u c then over l' else detach u c :: over l'
            end) cs)
  | _ => root
  end.

(** [t.decompose()], seen from a tree [root] that holds [t]: the element
    and all below it leave the tree.  On an element that has left the tree
    already, with an ancestor, it changes nothing. *)
Definition decompose (t : node) (root : node) : node :=
  match tag_uid t with
  | Some u => detach u root
  | None => root
  end.

(** The strings [get_text] collects, in document order. *)
Definition all_strings (do_strip : bool) (n : node) : list str :=
  flat_map (fun d =>
              match d with
              | NavigableString s =>
                  if do_strip then
                    match strip s with
                    | [] => []
                    | s' => [s']
                    end
                  else [s]
              | _ => []
              end)
           (descendants n).

(** [tag.get_text(separator, strip=...)] *)
Definition get_text (separator : str) (do_strip : bool) (n : node) : str :=
  join separator (all_strings do_strip n).

End Soup.

Import Soup.

(** ** Exceptions *)

(** An instance of Python's [Exception]: its class and what [str(e)] gives. *)
Record exn := { exn_class : str; exn_str : str }.

Inductive result (A : Type) :=
| Ok (a : A)
| Raise (e : exn).

Arguments Ok {A} a.
Arguments Raise {A} e.

Definition bind {A B : Type} (r : result A) (k : A -> result B) : result B :=
  match r with
  | Ok a => k a
  | Raise e => Raise e
  end.

Notation "x <- r ;; k" := (bind r (fun x => k))
  (at level 61, r at next level, right associativity).
Notation "' p <- r ;; k" := (bind r (fun x => let p := x in k))
  (at level 61, p pattern, r at next level, right associativity).

(** ** Case-insensitive patterns *)

(** Lower case as [re.I] compares it, for the letters the patterns use:
    the ASCII capitals, and the four letters beyond ASCII that match an
    ASCII letter (dotted capital I, dotless i, long s, the Kelvin sign). *)
Definition casefold (c : char) : char :=
  (if (65 <=? c) && (c <=? 90) then c + 32
   else if (c =? 304) || (c =? 305) then 105
   else if c =? 383 then 115
   else if c =? 8490 then 107
   else c)%N.

(** The word [word] (lower-case ASCII) matches at the start of [s]. *)
Fixpoint match_here (word s : str) : bool :=
  match word, s with
  | [], _ => true
  | _ :: _, [] => false
  | a :: word', c :: s' => (casefold c =? a)%N && match_here word' s'
  end.

(** The word occurs somewhere in [s]. *)
Fixpoint search_word (word s : str) : bool :=
  match_here word s ||
  match s with
  | [] => false
  | _ :: s' => search_word word s'
  end.

(** [re.compile(r"(w1|w2|...)", re.I).search(s)] as a truth value. *)
Definition re_search_I (words : list str) (s : str) : bool :=
  existsb (fun w => search_word w s) words.

(** ** Extraction *)

Definition non_content_tags : list str :=
  map lit ["script"; "style"; "noscript"; "svg"; "canvas"; "iframe"]%string.

Definition layout_tags : list str :=
  map lit ["header"; "footer"; "nav"; "aside"]%string.

Definition id_words : list str :=
  map lit ["cookie"; "consent"; "gdpr"; "newsletter"; "popup"; "modal"]%string.

Definition class_words : list str :=
  map lit ["cookie"; "consent"; "gdpr"; "newsletter"; "popup"; "modal";
           "overlay"]%string.

Definition junk_selectors : list (str * (str -> bool)) :=
  [ (lit "id", re_search_I id_words);
    (lit "class", re_search_I class_words) ].

(** [for tag_name in names: for t in body.find_all(tag_name): t.decompose()].
    The search returns its list before the first [decompose], and each
    [decompose] changes the one tree all of them share. *)
Definition remove_tags (names : list str) (body : node) : node :=
  fold_left
    (fun body tag_name =>
       fold_left (fun body t => decompose t body) (find_all tag_name body) body)
    names body.

(** The loop over [junk_selectors], with its test on the name of [t].  The
    name is the one [t] had when it was found: an element destroyed since,
    with an ancestor, answers [None] for its name and is decomposed again,
    which changes nothing, as skipping it does. *)
Definition remove_junk (body : node) : node :=
  fold_left
    (fun body '(attr, pattern) =>
       fold_left
         (fun body t =>
            if negb (has_name (lit "body") t) then decompose t body else body)
         (find_all_attrs attr pattern body) body)
    junk_selectors body.

(** The three removal loops, in the order of the source. *)
Definition clean_body (body : node) : node :=
  remove_junk (remove_tags layout_tags (remove_tags non_content_tags body)).

Definition soup_title (soup : node) : str :=
  match find (lit "title") soup with
  | Some t =>
      match get_text [] true t with
      | [] => []
      | _ => get_text [SP] true t
      end
  | None => []
  end.

(** The part of [extract_body_text] after the parse.  The loops change the
    tree of [soup] in place; after them the function reads [body] only. *)
Definition extract_from_soup (soup : node) : str * str :=
  let title := soup_title soup in
  match find (lit "body") soup with
  | None => (title, normalize_whitespace (get_text [LF] true soup))
  | Some body =>
      let body := clean_body body in
      let text := get_text [LF] true body in
      let text := normalize_whitespace text in
      (title, text)
  end.

(** ** The world outside *)

Module Requests.

(** What the program reads of a response. *)
Record Response := { status_code : Z; url : str; text : str }.

End Requests.

(** The parser, the HTTP client, the progress display and the clock, over a
    state [World] of everything outside the program. *)
Record Externals (World : Type) := {
  (** [BeautifulSoup(html, "lxml")] *)
  BeautifulSoup : str -> result node;
  (** [requests.get(url, headers=..., timeout=..., allow_redirects=...)] *)
  requests_get :
    str -> list (str * str) -> Z -> bool -> World ->
    result Requests.Response * World;
  (** [status_box.write(...)], with [i], [len(urls)] and [url] *)
  status_write : nat -> nat -> str -> World -> World;
  (** [progress.progress(i / len(urls))] *)
  progress : nat -> nat -> World -> World;
  (** [time.sleep(seconds)] *)
  time_sleep : Q -> World -> World
}.

(** The sidebar settings. *)
Record Settings := { timeout : Z; sleep_s : Q; user_agent : str }.

Section Program.

Context {World : Type} (E : Externals World).

Definition extract_body_text (html : str) : result (str * str) :=
  soup <- BeautifulSoup E html ;;
  Ok (extract_from_soup soup).

Definition fetch_url (url : str) (timeout : Z) (user_agent : str) (w : World)
  : result (Z * str * str) * World :=
  let headers := [(lit "User-Agent", user_agent)] in
  let (r, w) := requests_get E url headers timeout true w in
  (resp <- r ;;
   Ok (Requests.status_code resp, Requests.url resp, Requests.text resp), w).

(** ** Result rows *)

(** The [http_status] column holds the integer status of a response, or
    the empty string. *)
Inductive cell :=
| CInt (z : Z)
| CStr (s : str).

Record ResultRow := {
  input_url : str;
  final_url : str;
  http_status : cell;
  title : str;
  body_text : str;
  body_len_chars : Z;
  error : str
}.

(** The row appended at the end of the [try] block. *)
Definition success_row (url final_url : str) (code : Z) (title body_text : str)
  : ResultRow :=
  {| input_url := url;
     final_url := final_url;
     http_status := CInt code;
     title := title;
     body_text := body_text;
     body_len_chars := len body_text;
     error := [] |}.

(** The row appended by the [except Exception as e] block. *)
Definition failure_row (url : str) (e : exn) : ResultRow :=
  {| input_url := url;
     final_url := [];
     http_status := CStr [];
     title := [];
     body_text := [];
     body_len_chars := 0;
     error := exn_str e |}.

(** ** The batch loop *)

Variable cfg : Settings.

(** The [try] block: fetch, extract, build the row. *)
Definition try_block (url : str) (w : World) : result ResultRow * World :=
  let (fetched, w) := fetch_url url (timeout cfg) (user_agent cfg) w in
  ('(code, final_url, html) <- fetched ;;
   '(title, body_text) <- extract_body_text html ;;
   Ok (success_row url final_url code title body_text), w).

(** [if sleep_s > 0: time.sleep(float(sleep_s))] *)
Definition pause (w : World) : World :=
  match (0 ?= sleep_s cfg)%Q with
  | Lt => time_sleep E (sleep_s cfg) w
  | _ => w
  end.

(** One iteration of [for i, url in enumerate(urls, start=1)]; [total] is
    [len(urls)]. *)
Definition loop_body (total : nat) (st : list ResultRow * World)
  (item : nat * str) : list ResultRow * World :=
  let (rows, w) := st in
  let (i, url) := item in
  let w := status_write E i total url w in
  let (attempt, w) := try_block url w in
  let rows :=
    match attempt with
    | Ok row => rows ++ [row]
    | Raise e => rows ++ [failure_row url e]
    end in
  let w := progress E i total w in
  let w := pause w in
  (rows, w).

(** [enumerate(urls, start)] *)
Definition enumerate (start : nat) (urls : list str) : list (nat * str) :=
  combine (seq start (length urls)) urls.

(** The loop from the [start]-th item on. *)
Definition loop_from (total start : nat) (urls : list str)
  (st : list ResultRow * World) : list ResultRow * World :=
  fold_left (loop_body total) (enumerate start urls) st.

(** What the button does: [rows = []], then the loop. *)
Definition run_batch (urls : list str) (w : World) : list ResultRow * World :=
  loop_from (length urls) 1 urls ([], w).

(** *** Reading a run *)

(** The row an iteration appends, given how its [try] block ended. *)
Definition item_row (url : str) (attempt : result ResultRow) : ResultRow :=
  match attempt with
  | Ok row => row
  | Raise e => failure_row url e
  end.

(** The world in which the [try] block for [url] starts, when [url] comes
    right after the items [pre] in a batch of [total]. *)
Definition world_before (total : nat) (pre : list str) (url : str) (w : World)
  : World :=
  status_write E (S (length pre)) total url
    (snd (loop_from total 1 pre ([], w))).

(** How that [try] block ends, and the world it leaves. *)
Definition attempt_at (total : nat) (pre : list str) (url : str) (w : World)
  : result ResultRow * World :=
  try_block url (world_before total pre url w).

(** The world in which the item after [url] starts. *)
Definition world_after (total : nat) (pre : list str) (url : str) (w : World)
  : World :=
  pause (progress E (S (length pre)) total (snd (attempt_at total pre url w))).

End Program.

(** All content fields of a row hold their empty values. *)
Definition content_empty (row : ResultRow) : Prop :=
  final_url row = [] /\ http_status row = CStr [] /\ title row = [] /\
  body_text row = [] /\ body_len_chars row = 0%Z.

(** Exactly one of two propositions holds. *)
Definition xor (P Q : Prop) : Prop := (P /\ ~ Q) \/ (~ P /\ Q).

(** ** Sample documents and a sample world *)

Module Fixture.

Definition text (s : string) : node := NavigableString (lit s).

Definition elem (u : nat) (name : string) (cs : list node) : node :=
  Tag u (lit name) [] cs.

(** [<html><head><title> Sample  page </title></head><body><nav>SKIP</nav>
    <p>KEEP</p><div id=cookie-banner>SKIP</div></body></html>] *)
Definition sample_body : node :=
  elem 4 "body"
    [ elem 5 "nav" [text "SKIP"];
      elem 6 "p" [text "KEEP"];
      Tag 7 (lit "div") [(lit "id", AttrStr (lit "cookie-banner"))]
        [text "SKIP"] ].

Definition sample : node :=
  elem 0 "[document]"
    [ elem 1 "html"
        [ elem 2 "head" [elem 3 "title" [text " Sample  page "]];
          sample_body ] ].

(** [<body><div id=overlay>Subscribe</div><p>Article</p></body>] *)
Definition overlay_body : node :=
  elem 2 "body"
    [ Tag 3 (lit "div") [(lit "id", AttrStr (lit "overlay"))]
        [text "Subscribe"];
      elem 4 "p" [text "Article"] ].

Definition overlay_doc : node :=
  elem 0 "[document]" [elem 1 "html" [overlay_body]].

(** [<body class=modal-open><p>Text</p><body class=popup>Inner</body>
    <span class='x Cookie-Bar'>Accept</span></body>], as a tree: the inner
    element named body is one no parser builds from markup, and is here to
    show what the test on the name does. *)
Definition modal_body : node :=
  Tag 2 (lit "body") [(lit "class", AttrList [lit "modal-open"])]
    [ elem 3 "p" [text "Text"];
      Tag 4 (lit "body") [(lit "class", AttrList [lit "popup"])]
        [text "Inner"];
      Tag 5 (lit "span") [(lit "class", AttrList [lit "x"; lit "Cookie-Bar"])]
        [text "Accept"] ].

Definition modal_doc : node :=
  elem 0 "[document]" [elem 1 "html" [modal_body]].

(** [<body><p>Hello <b>world</b></p><p>Bye</p></body>] *)
Definition inline_body : node :=
  elem 2 "body"
    [ elem 3 "p" [text "Hello "; elem 4 "b" [text "world"]];
      elem 5 "p" [text "Bye"] ].

Definition inline_doc : node :=
  elem 0 "[document]" [elem 1 "html" [inline_body]].

(** [<html><head><title>Frames</title></head><frameset><noframes> Please
    upgrade </noframes></frameset></html>]: a document without a body. *)
Definition frames_doc : node :=
  elem 0 "[document]"
    [ elem 1 "html"
        [ elem 2 "head" [elem 3 "title" [text "Frames"]];
          elem 4 "frameset" [elem 5 "noframes" [text " Please  upgrade "]] ] ].

Definition parse (html : str) : result node :=
  if str_eqb html (lit "sample") then Ok sample
  else if str_eqb html (lit "overlay") then Ok overlay_doc
  else if str_eqb html (lit "inline") then Ok inline_doc
  else if str_eqb html (lit "frames") then Ok frames_doc
  else Raise {| exn_class := lit "ParserRejectedMarkup";
                exn_str := lit "cannot parse" |}.

(** The world is the number of requests sent so far. *)
Definition get (url : str) (headers : list (str * str)) (timeout : Z)
  (allow_redirects : bool) (w : nat) : result Requests.Response * nat :=
  (if str_eqb url (lit "http://a/") then
     Ok {| Requests.status_code := 200; Requests.url := lit "http://a/home";
           Requests.text := lit "sample" |}
   else if str_eqb url (lit "http://gone/") then
     Ok {| Requests.status_code := 404; Requests.url := lit "http://gone/";
           Requests.text := lit "frames" |}
   else if str_eqb url (lit "http://odd/") then
     Ok {| Requests.status_code := 200; Requests.url := lit "http://odd/";
           Requests.text := lit "?" |}
   else if str_eqb url (lit "http://big/") then
     Raise {| exn_class := lit "MemoryError"; exn_str := [] |}
   else
     Raise {| exn_class := lit "ConnectionError";
              exn_str := lit "connection refused" |},
   S w).

Definition world : Externals nat :=
  {| BeautifulSoup := parse;
     requests_get := get;
     status_write := fun _ _ _ w => w;
     progress := fun _ _ w => w;
     time_sleep := fun _ w => w |}.

Definition settings : Settings :=
  {| timeout := 25; sleep_s := (2 # 10)%Q; user_agent := lit "Mozilla/5.0" |}.

Definition urls : list str :=
  map lit ["http://a/"; "http://down/"; "http://gone/"; "http://odd/"]%string.

End Fixture.

(** ** Reading a tree *)

(** The contents of an element once the object [u] has been detached from
    them: the list [detach] builds for a [Tag]. *)
Definition detach_list (u : nat) : list node -> list node :=
  fix over (l : list node) : list node :=
    match l with
    | [] => []
    | c :: l' => if is_object u c then over l' else detach u c :: over l'
    end.

(** What a search looks at in an element: its identity, name and
    attributes. *)
Definition head (n : node)
  : option nat * option str * list (str * attr_value) :=
  (tag_uid n, tag_name n, tag_attrs n).

(** [b] is [a] with some elements below it taken out: the same element at
    the top, and below it only elements that were below [a]. *)
Definition remains (a b : node) : Prop :=
  head a = head b /\
  forall t, In t (descendants b) -> is_tag t = true ->
            exists t0, In t0 (descendants a) /\ head t0 = head t.

(** The text pieces of a node, by recursion over the tree: each string
    stripped, blank ones dropped, in document order. *)
Fixpoint text_pieces (n : node) : list str :=
  match n with
  | NavigableString s =>
      match strip s with
      | [] => []
      | s' => [s']
      end
  | OtherString _ => []
  | Tag _ _ _ cs => flat_map text_pieces cs
  end.

(** ** The extraction as the specification words it *)

Module SpecWording.

(** Step 6 with one list of words for both attributes. *)
Definition is_junk (t : node) : bool :=
  matches (attrs_get (lit "id") (tag_attrs t)) (re_search_I class_words)
  || matches (attrs_get (lit "class") (tag_attrs t)) (re_search_I class_words).

(** Elements that do not start a block of their own. *)
Definition inline_tags : list str :=
  map lit ["a"; "abbr"; "b"; "cite"; "code"; "em"; "i"; "q"; "s"; "small";
           "span"; "strong"; "sub"; "sup"; "u"]%string.

Definition is_inline (name : str) : bool :=
  existsb (str_eqb name) inline_tags.

(** The strings of a node in document order, with [None] wherever a
    block-level element starts or ends. *)
Fixpoint tokens (n : node) : list (option str) :=
  match n with
  | NavigableString s => [Some s]
  | OtherString _ => []
  | Tag _ name _ cs =>
      if is_inline name then flat_map tokens cs
      else None :: flat_map tokens cs ++ [None]
  end.

(** The text between two block boundaries, put together. *)
Fixpoint blocks (cur : str) (ts : list (option str)) : list str :=
  match ts with
  | [] => [cur]
  | Some s :: rest => blocks (cur ++ s) rest
  | None :: rest => cur :: blocks [] rest
  end.

(** Step 7: one piece per block, trimmed, a newline between pieces. *)
Definition block_text (n : node) : str :=
  join [LF]
    (filter (fun p => negb (str_eqb p [])) (map strip (blocks [] (tokens n)))).

End SpecWording.

(** ** Shapes of normalised text *)

(** No carriage return. *)
Definition no_cr (s : str) : Prop := Forall (fun c => c <> CR) s.

(** No tab and no two spaces in a row; [after_sp] tells that a space comes
    just before [s]. *)
Fixpoint blanks_ok (after_sp : bool) (s : str) : Prop :=
  match s with
  | [] => True
  | c :: s' =>
      c <> TAB /\
      if (c =? SP)%N then after_sp = false /\ blanks_ok true s'
      else blanks_ok false s'
  end.

(** No three line feeds in a row; [k] line feeds come just before [s]. *)
Fixpoint newlines_ok (k : nat) (s : str) : Prop :=
  match s with
  | [] => True
  | c :: s' =>
      if (c =? LF)%N then (S k < 3)%nat /\ newlines_ok (S k) s'
      else newlines_ok 0 s'
  end.

(** [pat] occurs in [s] as a run of neighbours. *)
Definition has_infix (pat s : str) : Prop :=
  exists l1 l2, s = l1 ++ pat ++ l2.

(** Text as [normalize_whitespace] leaves it: no carriage return, no tab, no
    two spaces and no three line feeds in a row, no whitespace at either
    end. *)
Definition normal_form (s : str) : Prop :=
  ~ In CR s /\ ~ In TAB s /\ ~ has_infix [SP; SP] s /\
  ~ has_infix [LF; LF; LF] s /\ strip s = s.

(** The characters of [s] that are not whitespace, in order. *)
Definition visible (s : str) : str := filter (fun c => negb (isspace c)) s.

(** ** Reading the list of URLs *)

(** [s.endswith(suffix)] *)
Definition endswith (s suffix : str) : bool :=
  str_eqb (skipn (length s - length suffix) s) suffix.

(** The lower case of one character, exact wherever it holds an ASCII
    character: the ASCII capitals, the Kelvin sign, and the dotted capital I,
    which becomes i and a combining dot.  Other characters stand for their
    own lower case, which is no ASCII character either. *)
Definition lower_char (c : char) : str :=
  (if (65 <=? c) && (c <=? 90) then [c + 32]
   else if c =? 304 then [105; 775]
   else if c =? 8490 then [107]
   else [c])%N.

(** [s.lower()], as far as a test against an ASCII suffix can tell. *)
Definition lower (s : str) : str := flat_map lower_char s.

(** The characters [str.splitlines] breaks a line at. *)
Definition is_linebreak (c : char) : bool :=
  ((10 <=? c) && (c <=? 13) || (28 <=? c) && (c <=? 30)
   || (c =? 133) || (c =? 8232) || (c =? 8233))%N.

(** [text.splitlines()], with [cur] the line read so far: a carriage return
    and a line feed right after it are one break, and text that ends with a
    break has no empty last line. *)
Fixpoint splitlines_from (cur text : str) : list str :=
  match text with
  | [] => match cur with [] => [] | _ => [cur] end
  | c :: rest =>
      if is_linebreak c then
        cur :: match rest with
               | d :: rest' =>
                   if (c =? CR)%N && (d =? LF)%N then splitlines_from [] rest'
                   else splitlines_from [] rest
               | [] => splitlines_from [] rest
               end
      else splitlines_from (cur ++ [c]) rest
  end.

Definition splitlines (text : str) : list str := splitlines_from [] text.

(** [[x.strip() for x in items if x.strip()]] *)
Definition stripped_nonempty (items : list str) : list str :=
  filter (fun x => negb (str_eqb x [])) (map strip items).

(** A cell of a data frame, as far as the program reads it: missing, or a
    value with what [str(u)] gives for it. *)
Inductive frame_cell :=
| NA
| Value (shown : str).

(** A data frame: its columns in order, each with its label; the labels
    are distinct, as the two readers make them. *)
Definition DataFrame := list (str * list frame_cell).

(** [col in df.columns] *)
Definition has_column (df : DataFrame) (col : str) : bool :=
  existsb (fun '(label, _) => str_eqb label col) df.

(** [df[col]] for a label the frame has. *)
Fixpoint column (df : DataFrame) (col : str) : list frame_cell :=
  match df with
  | [] => []
  | (label, cells) :: rest =>
      if str_eqb label col then cells else column rest col
  end.

(** [[str(u).strip() for u in series.dropna().tolist() if str(u).strip()]] *)
Definition series_urls (cells : list frame_cell) : list str :=
  stripped_nonempty
    (flat_map (fun u => match u with NA => [] | Value shown => [shown] end)
              cells).

Definition url_columns : list str :=
  map lit ["url"; "URL"; "adres"; "Adres"; "link"; "Link"]%string.

(** The loop over the usual column names, then the first column;
    [df.iloc[:, 0]] raises on a frame without columns. *)
Definition frame_urls (df : DataFrame) : result (list str) :=
  match List.find (has_column df) url_columns with
  | Some col => Ok (series_urls (column df col))
  | None =>
      match df with
      | (_, cells) :: _ => Ok (series_urls cells)
      | [] => Raise {| exn_class := lit "IndexError";
                       exn_str :=
                         lit "single positional indexer is out-of-bounds" |}
      end
  end.

(** The uploaded file: its name and what [read()] returns. *)
Record UploadedFile := { file_name : str; file_data : list Byte.byte }.

(** The decoder and the two table readers. *)
Record Readers := {
  (** [data.decode("utf-8", errors="ignore")] *)
  decode_utf8_ignore : list Byte.byte -> str;
  (** [pd.read_csv(io.BytesIO(data))] *)
  read_csv : list Byte.byte -> result DataFrame;
  (** [pd.read_excel(io.BytesIO(data))] *)
  read_excel : list Byte.byte -> result DataFrame
}.

(** The message of the [ValueError], in Polish. *)
Definition unsupported_message : str :=
  lit "Obs" ++ [322%N] ++ lit "uguj" ++ [281%N]
  ++ lit " tylko: TXT / CSV / XLSX z list" ++ [261%N] ++ lit " URL-i.".

Definition read_urls_from_upload (R : Readers) (uploaded_file : UploadedFile)
  : result (list str) :=
  let name := lower (file_name uploaded_file) in
  let data := file_data uploaded_file in
  if endswith name (lit ".txt") then
    let text := decode_utf8_ignore R data in
    let urls := stripped_nonempty (splitlines text) in
    Ok urls
  else if endswith name (lit ".csv") then
    df <- read_csv R data ;;
    frame_urls df
  else if endswith name (lit ".xlsx") then
    df <- read_excel R data ;;
    frame_urls df
  else
    Raise {| exn_class := lit "ValueError"; exn_str := unsupported_message |}.

(** ** Dropping repeated URLs *)

(** [d[key] = value] on a dictionary, its items in insertion order: a key
    already there keeps its place. *)
Fixpoint dict_setitem {V : Type} (key : str) (value : V)
  (d : list (str * V)) : list (str * V) :=
  match d with
  | [] => [(key, value)]
  | (k, v) :: rest =>
      if str_eqb k key then (k, value) :: rest
      else (k, v) :: dict_setitem key value rest
  end.

(** [dict.fromkeys(keys)] *)
Definition dict_fromkeys (keys : list str) : list (str * unit) :=
  fold_left (fun d key => dict_setitem key tt d) keys [].

(** [list(dict.fromkeys(urls))] *)
Definition dedupe (urls : list str) : list str :=
  map fst (dict_fromkeys urls).

(** The first time each string comes, in order: what [dedupe] is to give. *)
Fixpoint first_occurrences (urls : list str) : list str :=
  match urls with
  | [] => []
  | u :: rest =>
      u :: filter (fun x => negb (str_eqb x u)) (first_occurrences rest)
  end.

(** A relation for order: [a] is [b] with some items left out. *)
Inductive subseq {A : Type} : list A -> list A -> Prop :=
| subseq_nil : subseq [] []
| subseq_skip x a b : subseq a b -> subseq a (x :: b)
| subseq_keep x a b : subseq a b -> subseq (x :: a) (x :: b).

(** ** Sample uploads *)

Module UploadFixture.

(** A decoder that is right on ASCII bytes. *)
Definition decode (data : list Byte.byte) : str :=
  map (fun b => N_of_ascii (ascii_of_byte b)) data.

Definition bytes (s : str) : list Byte.byte :=
  map (fun c => byte_of_ascii (ascii_of_N c)) s.

Definition frame : DataFrame :=
  [ (lit "Link", [Value (lit "http://other/")]);
    (lit "URL", [Value (lit " http://a/ "); NA; Value (lit "  ");
                 Value (lit "http://b/"); Value (lit "http://a/")]) ].

Definition readers : Readers :=
  {| decode_utf8_ignore := decode;
     read_csv := fun _ => Ok frame;
     read_excel := fun _ => Ok [] |}.

Definition text_file : UploadedFile :=
  {| file_name := lit "List.TXT";
     file_data :=
       bytes (lit "http://a/" ++ [CR; LF] ++ lit "http://b/" ++ [CR; LF]) |}.

Definition messy_file : UploadedFile :=
  {| file_name := lit "urls.txt";
     file_data :=
       bytes (lit " http://a/ " ++ [LF; LF] ++ lit "http://b/" ++ [CR]
              ++ lit "http://a/" ++ [LF] ++ lit "   ") |}.

Definition csv_file : UploadedFile :=
  {| file_name := lit "urls.csv"; file_data := [] |}.

Definition xlsx_file : UploadedFile :=
  {| file_name := lit "empty.xlsx"; file_data := [] |}.

Definition pdf_file : UploadedFile :=
  {| file_name := lit "urls.pdf"; file_data := [] |}.

End UploadFixture.

(** ** The removal loops in one pass *)

(** The tree [n] without the elements below it that [p] holds of, each
    taken out with all below it. *)
Fixpoint prune (p : node -> bool) (n : node) : node :=
  match n with
  | Tag v nm a cs =>
      Tag v nm a
        ((fix over (l : list node) : list node :=
            match l with
            | [] => []
            | c :: l' => if p c then over l' else prune p c :: over l'
            end) cs)
  | _ => n
  end.

Definition prune_list (p : node -> bool) : list node -> list node :=
  fix over (l : list node) : list node :=
    match l with
    | [] => []
    | c :: l' => if p c then over l' else prune p c :: over l'
    end.

(** A test that looks at the identity, name and attributes of a node only. *)
Definition head_based (q : node -> bool) : Prop :=
  forall a b, head a = head b -> q a = q b.

(** The elements one of the three loops of [extract_body_text] takes out:
    by name, or, unless named body, by [id] or [class]. *)
Definition removable (t : node) : bool :=
  existsb (fun nm => has_name nm t) non_content_tags
  || existsb (fun nm => has_name nm t) layout_tags
  || is_tag t && negb (has_name (lit "body") t)
     && (matches (attrs_get (lit "id") (tag_attrs t)) (re_search_I id_words)
         || matches (attrs_get (lit "class") (tag_attrs t))
              (re_search_I class_words)).

(** [c] is the object [t], an element. *)
Definition same_object (t c : node) : bool :=
  match tag_uid t with
  | Some u => is_object u c
  | None => false
  end.

(** The identities of the elements in a list of nodes and below them. *)
Definition uids_in (l : list node) : list nat :=
  flat_map (fun t => match tag_uid t with Some u => [u] | None => [] end)
           (flat_map self_and_descendants l).

(** The identities of the elements below [n]. *)
Definition uids (n : node) : list nat := uids_in (contents n).

(** ** Exceptions that [except Exception] lets pass *)

(** The definitions above take every raised object for an instance of
    [Exception].  Here a raised object may also be an instance of
    [BaseException] that is no [Exception] ([KeyboardInterrupt],
    [SystemExit], [GeneratorExit]), which [except Exception] does not
    match, and a statement may end by raising as well as by returning. *)

Module Interruptible.

Inductive raised :=
| IsException (e : exn)
| NotException (cls msg : str).

(** How a call or a statement ends. *)
Inductive ending (A : Type) :=
| Returns (a : A)
| Throws (r : raised).

Arguments Returns {A} a.
Arguments Throws {A} r.

Definition bind {A B : Type} (x : ending A) (k : A -> ending B) : ending B :=
  match x with
  | Returns a => k a
  | Throws r => Throws r
  end.

(** The parser and the HTTP client may raise either kind of object. *)
Record Externals (World : Type) := {
  (** [BeautifulSoup(html, "lxml")] *)
  BeautifulSoup : str -> ending node;
  (** [requests.get(url, headers=..., timeout=..., allow_redirects=...)] *)
  requests_get :
    str -> list (str * str) -> Z -> bool -> World ->
    ending Requests.Response * World;
  (** [status_box.write(...)], with [i], [len(urls)] and [url] *)
  status_write : nat -> nat -> str -> World -> World;
  (** [progress.progress(i / len(urls))] *)
  progress : nat -> nat -> World -> World;
  (** [time.sleep(seconds)] *)
  time_sleep : Q -> World -> World
}.

Section Program.

Context {World : Type} (I : Externals World) (cfg : Settings).

Definition extract_body_text (html : str) : ending (str * str) :=
  bind (BeautifulSoup I html) (fun soup => Returns (extract_from_soup soup)).

Definition fetch_url (url : str) (timeout : Z) (user_agent : str) (w : World)
  : ending (Z * str * str) * World :=
  let headers := [(lit "User-Agent", user_agent)] in
  let (r, w) := requests_get I url headers timeout true w in
  (bind r (fun resp =>
             Returns (Requests.status_code resp, Requests.url resp,
                      Requests.text resp)),
   w).

(** The [try] block: fetch, extract, build the row. *)
Definition try_block (url : str) (w : World) : ending ResultRow * World :=
  let (fetched, w) := fetch_url url (timeout cfg) (user_agent cfg) w in
  (bind fetched (fun '(code, final_url, html) =>
   bind (extract_body_text html) (fun '(title, body_text) =>
   Returns (success_row url final_url code title body_text))),
   w).

(** [if sleep_s > 0: time.sleep(float(sleep_s))] *)
Definition pause (w : World) : World :=
  match (0 ?= sleep_s cfg)%Q with
  | Lt => time_sleep I (sleep_s cfg) w
  | _ => w
  end.

(** The loop over [enumerate(urls, start=1)], from the items [items] on,
    with the rows appended so far.  An object raised in the [try] block is
    handled by [except Exception as e] when it is an instance of
    [Exception]; any other leaves the loop, and with it the run. *)
Fixpoint loop (total : nat) (items : list (nat * str))
  (rows : list ResultRow) (w : World) : ending (list ResultRow) * World :=
  match items with
  | [] => (Returns rows, w)
  | (i, url) :: rest =>
      let w := status_write I i total url w in
      let (attempt, w) := try_block url w in
      match attempt with
      | Returns row =>
          let rows := rows ++ [row] in
          let w := progress I i total w in
          let w := pause w in
          loop total rest rows w
      | Throws (IsException e) =>
          let rows := rows ++ [failure_row url e] in
          let w := progress I i total w in
          let w := pause w in
          loop total rest rows w
      | Throws (NotException cls msg) => (Throws (NotException cls msg), w)
      end
  end.

(** What the button does: [rows = []], then the loop. *)
Definition run_batch (urls : list str) (w : World)
  : ending (list ResultRow) * World :=
  loop (length urls) (enumerate 1 urls) [] w.

End Program.

End Interruptible.

(** A result of the first kind, as an ending. *)
Definition to_ending {A : Type} (r : result A) : Interruptible.ending A :=
  match r with
  | Ok a => Interruptible.Returns a
  | Raise e => Interruptible.Throws (Interruptible.IsException e)
  end.

(** A world that raises instances of [Exception] only. *)
Definition interruptible {World : Type} (E : Externals World)
  : Interruptible.Externals World :=
  {| Interruptible.BeautifulSoup := fun html => to_ending (BeautifulSoup E html);
     Interruptible.requests_get :=
       fun url headers timeout allow_redirects w =>
         let (r, w') := requests_get E url headers timeout allow_redirects w in
         (to_ending r, w');
     Interruptible.status_write := status_write E;
     Interruptible.progress := progress E;
     Interruptible.time_sleep := time_sleep E |}.

(** The sample world, where the user interrupts the request to one URL. *)
Module InterruptFixture.

Definition keyboard_interrupt : Interruptible.raised :=
  Interruptible.NotException (lit "KeyboardInterrupt") [].

Definition world : Interruptible.Externals nat :=
  {| Interruptible.BeautifulSoup := fun html => to_ending (Fixture.parse html);
     Interruptible.requests_get :=
       fun url headers timeout allow_redirects w =>
         if str_eqb url (lit "http://slow/") then
           (Interruptible.Throws keyboard_interrupt, S w)
         else
           let (r, w') :=
             Fixture.get url headers timeout allow_redirects w in
           (to_ending r, w');
     Interruptible.status_write := fun _ _ _ w => w;
     Interruptible.progress := fun _ _ w => w;
     Interruptible.time_sleep := fun _ w => w |}.

Definition urls : list str :=
  map lit ["http://a/"; "http://down/"; "http://slow/"; "http://gone/"]%string.

End InterruptFixture.

(** ** Proof steps *)

(** From [H : _ /\ exists t0, In t0 l /\ _], the same about a list [l] sits
    in, on the side [side] of an append. *)
Ltac pass_on H side :=
  let Hu := fresh "Hu" in
  let t0 := fresh "t0" in
  let Hin0 := fresh "Hin0" in
  let Hh := fresh "Hh" in
  destruct H as (Hu & t0 & Hin0 & Hh);
  split; [exact Hu|]; exists t0; split; [|exact Hh];
  simpl; apply in_or_app; side; exact Hin0.

(** * Theorems *)

(** ** Strings *)

Lemma str_eqb_eq (a b : str) : str_eqb a b = true <-> a = b.
Proof.
  unfold str_eqb. destruct (list_eq_dec N.eq_dec a b); split; congruence.
Qed.

Lemma str_eqb_refl (a : str) : str_eqb a a = true.
Proof. now apply str_eqb_eq. Qed.

Example normalize_whitespace_ex1 :
  normalize_whitespace (lit "  a 	 b" ++ [CR; LF; CR; LF; LF; CR] ++ lit "c  ")
  = lit "a b" ++ [LF; LF] ++ lit "c".
Proof. vm_compute. reflexivity. Qed.

Example normalize_whitespace_ex2 :
  normalize_whitespace ([LF; SP; TAB] ++ lit "x" ++ [LF; LF; LF; LF; SP; SP]
                        ++ lit "y" ++ [CR])
  = lit "x" ++ [LF; LF; SP] ++ lit "y".
Proof. vm_compute. reflexivity. Qed.

(** ** Carriage returns *)

Lemma sub_crlf_no_cr_bounded (n : nat) :
  forall s, (length s <= n)%nat -> no_cr (sub_crlf s).
Proof.
  induction n as [|n IH]; intros [|c s] Hlen; simpl in *;
    try (constructor; fail); try lia.
  destruct (N.eqb_spec c CR) as [->|Hc].
  - constructor; [discriminate|].
    destruct s as [|d s]; [constructor|].
    destruct (N.eqb_spec d LF); apply IH; simpl in *; lia.
  - constructor; [assumption|]. apply IH. lia.
Qed.

Lemma sub_crlf_no_cr (s : str) : no_cr (sub_crlf s).
Proof. apply (sub_crlf_no_cr_bounded (n := length s)). lia. Qed.

Lemma sub_crlf_fixed (s : str) : no_cr s -> sub_crlf s = s.
Proof.
  induction 1 as [|c s Hc _ IH]; simpl; [reflexivity|].
  destruct (N.eqb_spec c CR); [contradiction|]. now rewrite IH.
Qed.

Lemma flush_run_Forall (Q : char -> Prop) (min : nat) (repl run : str) :
  Forall Q repl -> Forall Q run -> Forall Q (flush_run min repl run).
Proof. unfold flush_run. now destruct (min <=? length run)%nat. Qed.

Lemma sub_runs_Forall (Q : char -> Prop) cls (min : nat) (repl : str) :
  Forall Q repl ->
  forall text run, Forall Q run -> Forall Q text ->
                   Forall Q (sub_runs cls min repl run text).
Proof.
  intros Hrepl text.
  induction text as [|c rest IH]; intros run Hrun Htext; simpl.
  - now apply flush_run_Forall.
  - inversion Htext; subst. destruct (cls c).
    + apply IH; [|assumption]. apply Forall_app. split; auto.
    + apply Forall_app. split; [now apply flush_run_Forall|].
      constructor; [assumption|]. apply IH; [constructor | assumption].
Qed.

Lemma lstrip_Forall (Q : char -> Prop) (s : str) :
  Forall Q s -> Forall Q (lstrip s).
Proof.
  induction 1 as [|c s Hc Hs IH]; simpl; [constructor|].
  destruct (isspace c); [assumption | now constructor].
Qed.

Lemma rstrip_Forall (Q : char -> Prop) (s : str) :
  Forall Q s -> Forall Q (rstrip s).
Proof.
  induction 1 as [|c s Hc Hs IH]; simpl; [constructor|].
  destruct (rstrip s).
  - destruct (isspace c); repeat constructor; assumption.
  - now constructor.
Qed.

Lemma strip_Forall (Q : char -> Prop) (s : str) :
  Forall Q s -> Forall Q (strip s).
Proof. intro H. unfold strip. now apply rstrip_Forall, lstrip_Forall. Qed.

(** ** Runs of spaces and tabs *)

Lemma blanks_ok_weaken (b : bool) (s : str) :
  blanks_ok b s -> blanks_ok false s.
Proof.
  destruct s as [|c s]; simpl; [trivial|].
  destruct (c =? SP)%N; intuition.
Qed.

Lemma is_blank_false (c : char) :
  is_blank c = false -> c <> SP /\ c <> TAB.
Proof.
  unfold is_blank. intro H. apply orb_false_iff in H as [H1 H2].
  split; intros ->; discriminate.
Qed.

Lemma is_blank_true (c : char) : is_blank c = true -> c = SP \/ c = TAB.
Proof.
  unfold is_blank. intro H. apply orb_true_iff in H as [H|H];
    apply N.eqb_eq in H; auto.
Qed.

Lemma flush_blanks (run : str) :
  flush_run 1 [SP] run = match run with [] => [] | _ => [SP] end.
Proof. now destruct run. Qed.

Lemma blanks_ok_cons_other (c : char) (b : bool) (s : str) :
  is_blank c = false -> (blanks_ok b (c :: s) <-> blanks_ok false s).
Proof.
  intro Hc. apply is_blank_false in Hc as [Hsp Htab]. simpl.
  destruct (N.eqb_spec c SP); [contradiction|]. tauto.
Qed.

Lemma sub_blanks_runs_ok (text : str) :
  forall run, blanks_ok false (sub_runs is_blank 1 [SP] run text).
Proof.
  induction text as [|c rest IH]; intro run; simpl.
  - rewrite flush_blanks. destruct run; simpl; intuition discriminate.
  - destruct (is_blank c) eqn:Hc; [apply IH|].
    rewrite flush_blanks.
    assert (Hrec : blanks_ok false (c :: sub_runs is_blank 1 [SP] [] rest))
      by (apply blanks_ok_cons_other; [assumption | apply IH]).
    destruct run; simpl app; [exact Hrec|].
    change (SP <> TAB /\
            (false = false /\
             blanks_ok true (c :: sub_runs is_blank 1 [SP] [] rest))).
    split; [discriminate|]. split; [reflexivity|].
    apply blanks_ok_cons_other; [assumption|].
    now apply blanks_ok_cons_other in Hrec.
Qed.

Lemma sub_blanks_runs_fixed (s : str) :
  forall run, blanks_ok (match run with [] => false | _ => true end) s ->
              (run = [] \/ run = [SP]) ->
              sub_runs is_blank 1 [SP] run s = run ++ s.
Proof.
  induction s as [|c s IH]; intros run Hok Hrun; simpl.
  - rewrite flush_blanks, app_nil_r. now destruct Hrun as [->| ->].
  - destruct (is_blank c) eqn:Hc.
    + simpl in Hok. destruct Hok as [Htab Hok].
      apply is_blank_true in Hc as [-> | ->]; [|contradiction].
      change (SP =? SP)%N with true in Hok. destruct Hok as [Hb Hok].
      destruct Hrun as [->| ->]; [|discriminate].
      simpl. now rewrite (IH [SP]); [|assumption|right].
    + rewrite flush_blanks. apply blanks_ok_cons_other in Hok; [|assumption].
      rewrite (IH []); [|assumption|now left].
      now destruct Hrun as [->| ->].
Qed.

Lemma sub_blanks_fixed (s : str) : blanks_ok false s -> sub_blanks s = s.
Proof. intro H. apply (sub_blanks_runs_fixed s (run := [])); auto. Qed.

Lemma blanks_ok_lstrip (b : bool) (s : str) :
  blanks_ok b s -> blanks_ok false (lstrip s).
Proof.
  revert b. induction s as [|c s IH]; intros b H; simpl; [trivial|].
  destruct (isspace c).
  - simpl in H. destruct H as [_ H].
    destruct (c =? SP)%N; [destruct H as [_ H]|]; eapply IH; eassumption.
  - eapply blanks_ok_weaken; eassumption.
Qed.

Lemma blanks_ok_rstrip (s : str) :
  forall b, blanks_ok b s -> blanks_ok b (rstrip s).
Proof.
  induction s as [|c s IH]; intros b H; simpl; [trivial|].
  simpl in H. destruct H as [Htab H].
  destruct (rstrip s) as [|d r] eqn:Hr.
  - destruct (isspace c); simpl; [trivial|].
    split; [assumption|]. destruct (c =? SP)%N; intuition.
  - change (c <> TAB /\
            if (c =? SP)%N then b = false /\ blanks_ok true (d :: r)
            else blanks_ok false (d :: r)).
    split; [assumption|].
    destruct (c =? SP)%N; [destruct H as [Hb H]; split; [assumption|]|];
      apply IH; assumption.
Qed.

(** ** Runs of line feeds *)

Lemma is_lf_true (c : char) : is_lf c = true -> c = LF.
Proof. apply N.eqb_eq. Qed.

Lemma lf_run (run : str) :
  Forall (fun c => is_lf c = true) run -> run = repeat LF (length run).
Proof.
  induction 1 as [|c run Hc _ IH]; simpl; [reflexivity|].
  apply is_lf_true in Hc. congruence.
Qed.

Lemma newlines_ok_weaken (s : str) :
  forall j k, (j <= k)%nat -> newlines_ok k s -> newlines_ok j s.
Proof.
  induction s as [|c s IH]; intros j k Hjk H; simpl in *; [trivial|].
  destruct (c =? LF)%N; [|assumption].
  destruct H as [Hk H]. split; [lia|]. apply (IH (S j) (S k)); [lia|assumption].
Qed.

Lemma newlines_ok_cons_other (c : char) (k : nat) (s : str) :
  is_lf c = false -> (newlines_ok k (c :: s) <-> newlines_ok 0 s).
Proof. unfold is_lf. intro Hc. simpl. rewrite Hc. tauto. Qed.

Lemma newlines_ok_repeat (j : nat) :
  forall k s, (k + j < 3)%nat -> newlines_ok (k + j) s ->
              newlines_ok k (repeat LF j ++ s).
Proof.
  induction j as [|j IH]; intros k s Hk H; simpl.
  - now rewrite Nat.add_0_r in H.
  - split; [lia|]. apply IH; replace (S k + j)%nat with (k + S j)%nat by lia;
      assumption.
Qed.

Lemma flush_newlines (run : str) :
  Forall (fun c => is_lf c = true) run ->
  exists j, (j < 3)%nat /\ (run = [] <-> j = 0%nat) /\
            flush_run 3 [LF; LF] run = repeat LF j.
Proof.
  intro Hrun. unfold flush_run.
  destruct (3 <=? length run)%nat eqn:Hlen.
  - exists 2%nat. repeat split; [lia | | discriminate].
    intros ->. discriminate.
  - apply Nat.leb_gt in Hlen. exists (length run). repeat split.
    + assumption.
    + now intros ->.
    + now destruct run.
    + now apply lf_run.
Qed.

Lemma sub_newlines_runs_ok (text : str) :
  forall run, Forall (fun c => is_lf c = true) run ->
              newlines_ok 0 (sub_runs is_lf 3 [LF; LF] run text).
Proof.
  induction text as [|c rest IH]; intros run Hrun; simpl.
  - destruct (flush_newlines Hrun) as (j & Hj & _ & ->).
    rewrite <- (app_nil_r (repeat LF j)).
    now apply newlines_ok_repeat.
  - destruct (is_lf c) eqn:Hc.
    + apply IH, Forall_app. split; [assumption|]. now constructor.
    + destruct (flush_newlines Hrun) as (j & Hj & _ & ->).
      apply newlines_ok_repeat; [assumption|].
      apply newlines_ok_cons_other; [assumption|]. apply IH. constructor.
Qed.

Lemma sub_newlines_runs_fixed (s : str) :
  forall run, Forall (fun c => is_lf c = true) run ->
              (length run < 3)%nat -> newlines_ok (length run) s ->
              sub_runs is_lf 3 [LF; LF] run s = run ++ s.
Proof.
  induction s as [|c s IH]; intros run Hrun Hlen Hok; simpl.
  - rewrite app_nil_r. unfold flush_run.
    destruct (Nat.leb_spec 3 (length run)); [lia | reflexivity].
  - destruct (is_lf c) eqn:Hc.
    + simpl in Hok. unfold is_lf in Hc. rewrite Hc in Hok.
      destruct Hok as [Hk Hok].
      rewrite IH, <- app_assoc; [reflexivity | | |].
      * apply Forall_app. split; [assumption|]. now constructor.
      * rewrite length_app. simpl. lia.
      * rewrite length_app. simpl.
        now replace (length run + 1)%nat with (S (length run)) by lia.
    + apply newlines_ok_cons_other in Hok; [|assumption].
      rewrite (IH []); [|constructor|simpl; lia|assumption].
      unfold flush_run.
      destruct (Nat.leb_spec 3 (length run)); [lia | reflexivity].
Qed.

Lemma sub_newlines_fixed (s : str) : newlines_ok 0 s -> sub_newlines s = s.
Proof.
  intro H. apply (sub_newlines_runs_fixed s (run := []));
    [constructor | simpl; lia | assumption].
Qed.

Lemma blanks_ok_lf_run (j : nat) (b : bool) (s : str) :
  blanks_ok (match j with O => b | _ => false end) s ->
  blanks_ok b (repeat LF j ++ s).
Proof.
  destruct j as [|j]; simpl; [trivial|].
  intro H. split; [discriminate|].
  induction j as [|j IH]; simpl; [assumption|].
  split; [discriminate | assumption].
Qed.

Lemma sub_newlines_runs_blanks (text : str) :
  forall run b, Forall (fun c => is_lf c = true) run ->
                blanks_ok (match run with [] => b | _ => false end) text ->
                blanks_ok b (sub_runs is_lf 3 [LF; LF] run text).
Proof.
  induction text as [|c rest IH]; intros run b Hrun Hok; simpl.
  - destruct (flush_newlines Hrun) as (j & _ & _ & ->).
    rewrite <- (app_nil_r (repeat LF j)).
    apply blanks_ok_lf_run. now destruct j.
  - destruct (is_lf c) eqn:Hc.
    + apply IH; [apply Forall_app; split; [assumption | now constructor]|].
      apply is_lf_true in Hc. subst c.
      destruct run; simpl in *; destruct Hok as [_ Hok]; exact Hok.
    + destruct (flush_newlines Hrun) as (j & _ & Hj0 & ->).
      assert (Hstep : forall b0, blanks_ok b0 (c :: rest) ->
                    blanks_ok b0 (c :: sub_runs is_lf 3 [LF; LF] [] rest)).
      { intros b0 [Htab H]. split; [assumption|].
        destruct (c =? SP)%N.
        - destruct H as [Hb H]. split; [assumption|].
          apply IH; [constructor | assumption].
        - apply IH; [constructor | assumption]. }
      apply blanks_ok_lf_run, Hstep.
      destruct run as [|d run]; destruct j as [|j]; try assumption.
      * destruct Hj0 as [Hj0 _]. now specialize (Hj0 eq_refl).
      * destruct Hj0 as [_ Hj0]. now specialize (Hj0 eq_refl).
Qed.

Lemma sub_newlines_blanks (s : str) :
  blanks_ok false s -> blanks_ok false (sub_newlines s).
Proof. intro H. apply sub_newlines_runs_blanks; [constructor | assumption]. Qed.

Lemma newlines_ok_lstrip (s : str) :
  forall k, newlines_ok k s -> newlines_ok 0 (lstrip s).
Proof.
  induction s as [|c s IH]; intros k H; simpl; [trivial|].
  destruct (isspace c).
  - simpl in H. destruct (c =? LF)%N; [destruct H as [_ H]|]; eapply IH;
      eassumption.
  - apply (newlines_ok_weaken (c :: s) (j := 0%nat) (k := k)); [lia|assumption].
Qed.

Lemma newlines_ok_rstrip (s : str) :
  forall k, newlines_ok k s -> newlines_ok k (rstrip s).
Proof.
  induction s as [|c s IH]; intros k H; simpl; [trivial|].
  simpl in H.
  destruct (rstrip s) as [|d r] eqn:Hr.
  - destruct (isspace c); simpl; [trivial|].
    destruct (c =? LF)%N; intuition.
  - change (if (c =? LF)%N then (S k < 3)%nat /\ newlines_ok (S k) (d :: r)
            else newlines_ok 0 (d :: r)).
    destruct (c =? LF)%N; [destruct H as [Hk H]; split; [assumption|]|];
      apply IH; assumption.
Qed.

(** ** Stripping twice *)

Lemma lstrip_fixed (s : str) :
  match s with [] => True | c :: _ => isspace c = false end -> lstrip s = s.
Proof. destruct s as [|c s]; simpl; [reflexivity|]. now intros ->. Qed.

Lemma lstrip_head (s : str) :
  match lstrip s with [] => True | c :: _ => isspace c = false end.
Proof.
  induction s as [|c s IH]; simpl; [trivial|].
  destruct (isspace c) eqn:Hc; [assumption|]. exact Hc.
Qed.

Lemma rstrip_head (s : str) :
  match s with [] => True | c :: _ => isspace c = false end ->
  match rstrip s with [] => True | c :: _ => isspace c = false end.
Proof.
  destruct s as [|c s]; simpl; [trivial|]. intro Hc.
  destruct (rstrip s); [rewrite Hc|]; exact Hc.
Qed.

Lemma rstrip_idempotent (s : str) : rstrip (rstrip s) = rstrip s.
Proof.
  induction s as [|c s IH]; simpl; [reflexivity|].
  destruct (rstrip s) as [|d r] eqn:Hr.
  - destruct (isspace c) eqn:Hc; simpl; [reflexivity|]. now rewrite Hc.
  - change (rstrip (c :: d :: r)) with
      (match rstrip (d :: r) with
       | [] => if isspace c then [] else [c]
       | x :: r' => c :: x :: r'
       end).
    now rewrite IH.
Qed.

Lemma strip_idempotent (s : str) : strip (strip s) = strip s.
Proof.
  unfold strip.
  rewrite (lstrip_fixed (rstrip (lstrip s))); [apply rstrip_idempotent|].
  apply rstrip_head, lstrip_head.
Qed.

(** ** Normalised text *)

Lemma normalize_whitespace_shape (t : str) :
  no_cr (normalize_whitespace t) /\
  blanks_ok false (normalize_whitespace t) /\
  newlines_ok 0 (normalize_whitespace t).
Proof.
  unfold normalize_whitespace, strip. repeat split.
  - apply rstrip_Forall, lstrip_Forall.
    apply sub_runs_Forall; [repeat constructor; discriminate | constructor |].
    apply sub_runs_Forall; [repeat constructor; discriminate | constructor |].
    apply sub_crlf_no_cr.
  - apply blanks_ok_rstrip, blanks_ok_lstrip with (b := false).
    apply sub_newlines_blanks, sub_blanks_runs_ok.
  - apply newlines_ok_rstrip, newlines_ok_lstrip with (k := 0%nat).
    apply sub_newlines_runs_ok. constructor.
Qed.

(** C7.  [normalize_whitespace] is idempotent: applied to its own output it
    returns that output unchanged, for every string. *)
Theorem normalize_whitespace_idempotent (t : str) :
  normalize_whitespace (normalize_whitespace t) = normalize_whitespace t.
Proof.
  destruct (normalize_whitespace_shape t) as (Hcr & Hbl & Hnl).
  set (r := normalize_whitespace t) in *.
  unfold normalize_whitespace at 1.
  rewrite (sub_crlf_fixed Hcr), (sub_blanks_fixed _ Hbl),
    (sub_newlines_fixed _ Hnl).
  unfold r, normalize_whitespace. apply strip_idempotent.
Qed.

(** ** Trees *)

Lemma node_induction (P : node -> Prop) :
  (forall s, P (NavigableString s)) ->
  (forall s, P (OtherString s)) ->
  (forall u nm a cs, Forall P cs -> P (Tag u nm a cs)) ->
  forall n, P n.
Proof.
  intros Hs Ho Ht. fix IH 1.
  intros [s|s|u nm a cs]; [apply Hs | apply Ho |].
  apply Ht. induction cs as [|c cs IHcs]; constructor; [apply IH | exact IHcs].
Qed.

Example sample_text :
  extract_from_soup Fixture.sample = (lit "Sample  page", lit "KEEP").
Proof. vm_compute. reflexivity. Qed.

Example overlay_text :
  extract_from_soup Fixture.overlay_doc
  = ([], lit "Subscribe" ++ [LF] ++ lit "Article").
Proof. vm_compute. reflexivity. Qed.

Example modal_text :
  extract_from_soup Fixture.modal_doc
  = ([], lit "Text" ++ [LF] ++ lit "Inner").
Proof. vm_compute. reflexivity. Qed.

Example inline_text :
  extract_from_soup Fixture.inline_doc
  = ([], lit "Hello" ++ [LF] ++ lit "world" ++ [LF] ++ lit "Bye").
Proof. vm_compute. reflexivity. Qed.

Example inline_text_spec :
  SpecWording.block_text (clean_body Fixture.inline_body)
  = lit "Hello world" ++ [LF] ++ lit "Bye".
Proof. vm_compute. reflexivity. Qed.

Example frames_text :
  extract_from_soup Fixture.frames_doc
  = (lit "Frames", lit "Frames" ++ [LF] ++ lit "Please upgrade").
Proof. vm_compute. reflexivity. Qed.

Lemma detach_tag (u v : nat) (nm : str) (a : list (str * attr_value))
  (cs : list node) :
  detach u (Tag v nm a cs) = Tag v nm a (detach_list u cs).
Proof. reflexivity. Qed.

Lemma detach_head (u : nat) (n : node) : head (detach u n) = head n.
Proof. now destruct n. Qed.

Lemma is_tag_head (a b : node) : head a = head b -> is_tag a = is_tag b.
Proof. destruct a, b; simpl; intros [= ]; reflexivity || discriminate. Qed.

Lemma is_object_uid (u : nat) (n : node) :
  is_object u n = true <-> tag_uid n = Some u.
Proof.
  destruct n; simpl; try (split; discriminate).
  rewrite Nat.eqb_eq. split; congruence.
Qed.

(** What is left after a detachment was there before, and is not the
    detached object. *)
Lemma detach_self_and_descendants (u : nat) (c : node) :
  is_object u c = false ->
  forall t, In t (self_and_descendants (detach u c)) ->
            is_object u t = false /\
            exists t0, In t0 (self_and_descendants c) /\ head t0 = head t.
Proof.
  induction c as [s|s|v nm a cs IHcs] using node_induction; intros Hc t Hin.
  - destruct Hin as [<-|[]]. split; [reflexivity|].
    exists (NavigableString s). split; [now left | reflexivity].
  - destruct Hin as [<-|[]]. split; [reflexivity|].
    exists (OtherString s). split; [now left | reflexivity].
  - rewrite detach_tag in Hin. destruct Hin as [<-|Hin].
    + split; [exact Hc|].
      exists (Tag v nm a cs). split; [now left | reflexivity].
    + assert (Hbelow :
               is_object u t = false /\
               exists t0, In t0 (flat_map self_and_descendants cs) /\
                          head t0 = head t).
      { clear Hc. revert t Hin.
        induction IHcs as [|d cs Hd _ IHrest]; intros t Hin;
          simpl in Hin; [contradiction|].
        destruct (is_object u d) eqn:Hd'.
        - pass_on (IHrest t Hin) ltac:(right).
        - simpl in Hin. apply in_app_or in Hin as [Hin|Hin].
          + pass_on (Hd eq_refl t Hin) ltac:(left).
          + pass_on (IHrest t Hin) ltac:(right). }
      destruct Hbelow as (Hu & t0 & Hin0 & Hh).
      split; [exact Hu|]. exists t0. split; [|exact Hh]. now right.
Qed.

Lemma detach_list_descendants (u : nat) (l : list node) (t : node) :
  In t (flat_map self_and_descendants (detach_list u l)) ->
  is_object u t = false /\
  exists t0, In t0 (flat_map self_and_descendants l) /\ head t0 = head t.
Proof.
  induction l as [|c l IHl]; simpl; [contradiction|].
  destruct (is_object u c) eqn:Hc.
  - intro Hin. pass_on (IHl Hin) ltac:(right).
  - simpl. intro Hin. apply in_app_or in Hin as [Hin|Hin].
    + pass_on (detach_self_and_descendants u c Hc t Hin) ltac:(left).
    + pass_on (IHl Hin) ltac:(right).
Qed.

Lemma detach_remains (u : nat) (root : node) :
  remains root (detach u root) /\
  forall t, In t (descendants (detach u root)) -> is_object u t = false.
Proof.
  unfold remains. rewrite detach_head.
  destruct root as [s|s|v nm a cs]; simpl;
    try (repeat split; contradiction).
  unfold descendants. simpl contents. repeat split.
  - intros t Hin _. now apply detach_list_descendants in Hin.
  - intros t Hin. now apply detach_list_descendants in Hin.
Qed.

Lemma remains_refl (a : node) : remains a a.
Proof. split; [reflexivity|]. intros t Hin _. now exists t. Qed.

Lemma remains_trans (a b c : node) : remains a b -> remains b c -> remains a c.
Proof.
  intros [Hab Hab'] [Hbc Hbc']. split; [congruence|].
  intros t Hin Ht. destruct (Hbc' t Hin Ht) as (t1 & Hin1 & Hh1).
  assert (Ht1 : is_tag t1 = true) by (rewrite (is_tag_head Hh1); exact Ht).
  destruct (Hab' t1 Hin1 Ht1) as (t0 & Hin0 & Hh0).
  exists t0. split; [assumption | congruence].
Qed.

Lemma decompose_remains (t root : node) :
  remains root (decompose t root) /\
  (is_tag t = true ->
   forall d, In d (descendants (decompose t root)) -> tag_uid d <> tag_uid t).
Proof.
  unfold decompose. destruct t as [s|s|u nm a cs]; simpl;
    try (split; [apply remains_refl | discriminate]).
  destruct (detach_remains u root) as [Hr Hu]. split; [exact Hr|].
  intros _ d Hin Heq. apply is_object_uid in Heq.
  rewrite (Hu d Hin) in Heq. discriminate.
Qed.

(** A loop of [decompose] calls over the elements a search found, with a
    test [guard] on each: what it leaves, and what it takes out. *)
Lemma decompose_loop (guard : node -> bool) (found : list node) :
  forall body,
    let body' :=
      fold_left (fun b t => if guard t then decompose t b else b) found body in
    remains body body' /\
    forall f, In f found -> guard f = true -> is_tag f = true ->
              forall d, In d (descendants body') -> is_tag d = true ->
                        tag_uid d <> tag_uid f.
Proof.
  induction found as [|t found IH]; intros body; simpl.
  - split; [apply remains_refl | contradiction].
  - set (b1 := if guard t then decompose t body else body).
    destruct (IH b1) as [Hrem Hout].
    assert (Hb1 : remains body b1).
    { unfold b1. destruct (guard t);
        [apply decompose_remains | apply remains_refl]. }
    split; [eapply remains_trans; eassumption|].
    intros f [<-|Hf] Hg Hf_tag d Hd Hd_tag; [|now apply (Hout f)].
    destruct Hrem as [_ Hrem]. destruct (Hrem d Hd Hd_tag) as (d1 & Hd1 & Hh).
    unfold b1 in Hd1. rewrite Hg in Hd1.
    apply (proj2 (decompose_remains t body) Hf_tag) in Hd1.
    unfold head in Hh. congruence.
Qed.

(** ** The removal loops *)

Lemma remove_tags_remains (names : list str) :
  forall body, remains body (remove_tags names body).
Proof.
  unfold remove_tags.
  induction names as [|nm names IH]; intro body; simpl; [apply remains_refl|].
  eapply remains_trans; [|apply IH].
  apply (decompose_loop (fun _ => true) (find_all nm body) body).
Qed.

(** One round of the loop over [junk_selectors]. *)
Lemma junk_round (attr : str) (pattern : str -> bool) (body : node) :
  let body' :=
    fold_left
      (fun b t => if negb (has_name (lit "body") t) then decompose t b else b)
      (find_all_attrs attr pattern body) body in
  remains body body' /\
  forall d, In d (descendants body') -> is_tag d = true ->
            has_name (lit "body") d = false ->
            matches (attrs_get attr (tag_attrs d)) pattern = false.
Proof.
  intro body'.
  destruct (decompose_loop (fun t => negb (has_name (lit "body") t))
              (find_all_attrs attr pattern body) body) as [Hrem Hout].
  fold body' in Hrem, Hout. split; [exact Hrem|].
  intros d Hd Hd_tag Hname.
  destruct (matches (attrs_get attr (tag_attrs d)) pattern) eqn:Hm;
    [exfalso | reflexivity].
  destruct Hrem as [_ Hrem]. destruct (Hrem d Hd Hd_tag) as (d0 & Hd0 & Hh).
  assert (Htag0 : is_tag d0 = true) by (rewrite (is_tag_head Hh); exact Hd_tag).
  injection Hh as Huid Hnm Hattrs.
  apply (Hout d0) with (d := d); try assumption.
  - apply filter_In. split; [exact Hd0|].
    rewrite Htag0, Hattrs, Hm. reflexivity.
  - unfold has_name in *. rewrite Hnm, Hname. reflexivity.
  - congruence.
Qed.

Lemma remove_junk_unfold (body : node) :
  remove_junk body =
  let round attr pattern b :=
    fold_left
      (fun b t => if negb (has_name (lit "body") t) then decompose t b else b)
      (find_all_attrs attr pattern b) b in
  round (lit "class") (re_search_I class_words)
    (round (lit "id") (re_search_I id_words) body).
Proof. reflexivity. Qed.

Lemma remove_junk_spec (body : node) :
  remains body (remove_junk body) /\
  forall t, In t (descendants (remove_junk body)) -> is_tag t = true ->
            has_name (lit "body") t = false ->
            matches (attrs_get (lit "id") (tag_attrs t)) (re_search_I id_words)
            = false /\
            matches (attrs_get (lit "class") (tag_attrs t))
              (re_search_I class_words) = false.
Proof.
  rewrite remove_junk_unfold. cbv zeta.
  destruct (junk_round (lit "id") (re_search_I id_words) body) as [Hr1 Hid].
  cbv zeta in Hr1, Hid.
  set (b1 := fold_left _ (find_all_attrs (lit "id") _ body) body) in *.
  destruct (junk_round (lit "class") (re_search_I class_words) b1)
    as [Hr2 Hcl].
  cbv zeta in Hr2, Hcl.
  set (b2 := fold_left _ (find_all_attrs (lit "class") _ b1) b1) in *.
  split; [eapply remains_trans; eassumption|].
  intros t Ht Ht_tag Hname. split; [|now apply Hcl].
  destruct Hr2 as [_ Hr2]. destruct (Hr2 t Ht Ht_tag) as (t1 & Ht1 & Hh).
  assert (Htag1 : is_tag t1 = true) by (rewrite (is_tag_head Hh); exact Ht_tag).
  injection Hh as Huid Hnm Hattrs.
  rewrite <- Hattrs. apply Hid; try assumption.
  unfold has_name in *. now rewrite Hnm.
Qed.

Lemma clean_body_remains (body : node) : remains body (clean_body body).
Proof.
  unfold clean_body.
  eapply remains_trans; [apply remove_tags_remains|].
  eapply remains_trans; [apply remove_tags_remains|].
  apply remove_junk_spec.
Qed.

Lemma extract_from_soup_body (soup body : node) :
  find (lit "body") soup = Some body ->
  extract_from_soup soup =
  (soup_title soup, normalize_whitespace (get_text [LF] true (clean_body body))).
Proof. unfold extract_from_soup. now intros ->. Qed.

(** ** Text of a tree *)

Lemma strings_of_subtree (c : node) :
  flat_map (fun d =>
              match d with
              | NavigableString s =>
                  match strip s with
                  | [] => []
                  | s' => [s']
                  end
              | _ => []
              end)
           (self_and_descendants c)
  = text_pieces c.
Proof.
  induction c as [s|s|u nm a cs IHcs] using node_induction; simpl.
  - now rewrite app_nil_r.
  - reflexivity.
  - induction IHcs as [|d cs Hd _ IHrest]; simpl; [reflexivity|].
    now rewrite flat_map_app, Hd, IHrest.
Qed.

(** The strings [get_text] collects are the text pieces of the children,
    one child after the other. *)
Lemma all_strings_pieces (n : node) :
  all_strings true n = flat_map text_pieces (contents n).
Proof.
  unfold all_strings, descendants.
  induction (contents n) as [|c cs IH]; simpl; [reflexivity|].
  now rewrite flat_map_app, strings_of_subtree, IH.
Qed.

Lemma text_pieces_trimmed (n : node) :
  Forall (fun p => p <> [] /\ strip p = p) (text_pieces n).
Proof.
  induction n as [s|s|u nm a cs IHcs] using node_induction; simpl.
  - destruct (strip s) as [|c r] eqn:Hs; constructor; [|constructor].
    split; [discriminate|]. rewrite <- Hs. apply strip_idempotent.
  - constructor.
  - induction IHcs as [|d cs Hd _ IHrest]; simpl; [constructor|].
    apply Forall_app. now split.
Qed.

(** ** The extraction claims *)

Section ExtractionClaims.

Context {World : Type} (E : Externals World).

Lemma extract_body_text_body (html : str) (soup body : node) :
  BeautifulSoup E html = Ok soup ->
  find (lit "body") soup = Some body ->
  extract_body_text E html =
  Ok (soup_title soup,
      normalize_whitespace (get_text [LF] true (clean_body body))).
Proof.
  intros Hparse Hbody. unfold extract_body_text. rewrite Hparse. simpl.
  now rewrite (extract_from_soup_body _ Hbody).
Qed.

(** C1, as the code has it.  For a document with a body, the text returned
    is the text of the body after the removal loops; the body element itself
    is still there, and below it no element is left, other than one named
    [body], whose [id] matches one of cookie, consent, gdpr, newsletter,
    popup, modal, or whose [class] matches one of these or overlay, letter
    case ignored.  Nothing is below the body that was not there before. *)
Theorem junk_elements_removed (html : str) (soup body : node) :
  BeautifulSoup E html = Ok soup ->
  find (lit "body") soup = Some body ->
  extract_body_text E html =
  Ok (soup_title soup,
      normalize_whitespace (get_text [LF] true (clean_body body))) /\
  remains body (clean_body body) /\
  forall t, In t (descendants (clean_body body)) -> is_tag t = true ->
            has_name (lit "body") t = false ->
            matches (attrs_get (lit "id") (tag_attrs t)) (re_search_I id_words)
            = false /\
            matches (attrs_get (lit "class") (tag_attrs t))
              (re_search_I class_words) = false.
Proof.
  intros Hparse Hbody. split; [now apply extract_body_text_body|].
  split; [apply clean_body_remains|].
  unfold clean_body. apply remove_junk_spec.
Qed.

(** C2, as the code has it.  For a document with a body, the body text is
    the whitespace-normalised join, with one newline between neighbours, of
    the text pieces of the body after removal: every string of the tree,
    trimmed, blank ones left out, in document order.  Each string is a piece
    of its own, whether the element around it starts a block or not. *)
Theorem body_text_joins_pieces (html : str) (soup body : node) :
  BeautifulSoup E html = Ok soup ->
  find (lit "body") soup = Some body ->
  let pieces := flat_map text_pieces (contents (clean_body body)) in
  extract_body_text E html =
  Ok (soup_title soup, normalize_whitespace (join [LF] pieces)) /\
  Forall (fun p => p <> [] /\ strip p = p) pieces.
Proof.
  intros Hparse Hbody pieces. split.
  - rewrite (extract_body_text_body _ Hparse Hbody).
    unfold get_text. now rewrite all_strings_pieces.
  - unfold pieces. induction (contents (clean_body body)) as [|c cs IH];
      simpl; [constructor|].
    apply Forall_app. split; [apply text_pieces_trimmed | exact IH].
Qed.


End ExtractionClaims.

(** ** The extraction claims on the sample documents *)

Lemma junk_elements_removed_witness :
  BeautifulSoup Fixture.world (lit "sample") = Ok Fixture.sample /\
  find (lit "body") Fixture.sample = Some Fixture.sample_body /\
  extract_body_text Fixture.world (lit "sample")
  = Ok (lit "Sample  page", lit "KEEP") /\
  forall t, In t (descendants (clean_body Fixture.sample_body)) ->
            is_tag t = true -> has_name (lit "body") t = false ->
            matches (attrs_get (lit "id") (tag_attrs t)) (re_search_I id_words)
            = false /\
            matches (attrs_get (lit "class") (tag_attrs t))
              (re_search_I class_words) = false.
Proof.
  assert (Hparse : BeautifulSoup Fixture.world (lit "sample")
                   = Ok Fixture.sample) by reflexivity.
  assert (Hbody : find (lit "body") Fixture.sample = Some Fixture.sample_body)
    by reflexivity.
  destruct (@junk_elements_removed _ Fixture.world _ _ _ Hparse Hbody)
    as (Htext & _ & Hjunk).
  split; [exact Hparse|]. split; [exact Hbody|]. split; [|exact Hjunk].
  rewrite Htext. vm_compute. reflexivity.
Defined.

(** C1 as the specification words it fails: an element under the body
    whose [id] holds overlay stays in the tree, and its text in the result. *)
Lemma junk_elements_removed_counterexample :
  BeautifulSoup Fixture.world (lit "overlay") = Ok Fixture.overlay_doc /\
  find (lit "body") Fixture.overlay_doc = Some Fixture.overlay_body /\
  extract_body_text Fixture.world (lit "overlay")
  = Ok ([], lit "Subscribe" ++ [LF] ++ lit "Article") /\
  ~ (forall t, In t (descendants (clean_body Fixture.overlay_body)) ->
               is_tag t = true -> SpecWording.is_junk t = false).
Proof.
  split; [reflexivity|]. split; [reflexivity|].
  split; [vm_compute; reflexivity|]. intro H.
  specialize (H (Tag 3 (lit "div") [(lit "id", AttrStr (lit "overlay"))]
                   [Fixture.text "Subscribe"])).
  assert (Hin : In (Tag 3 (lit "div") [(lit "id", AttrStr (lit "overlay"))]
                      [Fixture.text "Subscribe"])
                   (descendants (clean_body Fixture.overlay_body)))
    by (vm_compute; left; reflexivity).
  specialize (H Hin eq_refl). vm_compute in H. discriminate.
Qed.

Lemma body_text_joins_pieces_witness :
  BeautifulSoup Fixture.world (lit "inline") = Ok Fixture.inline_doc /\
  find (lit "body") Fixture.inline_doc = Some Fixture.inline_body /\
  extract_body_text Fixture.world (lit "inline")
  = Ok ([], normalize_whitespace
              (join [LF] [lit "Hello"; lit "world"; lit "Bye"])).
Proof.
  assert (Hparse : BeautifulSoup Fixture.world (lit "inline")
                   = Ok Fixture.inline_doc) by reflexivity.
  assert (Hbody : find (lit "body") Fixture.inline_doc
                  = Some Fixture.inline_body) by reflexivity.
  split; [exact Hparse|]. split; [exact Hbody|].
  exact (proj1 (@body_text_joins_pieces _ Fixture.world _ _ _ Hparse Hbody)).
Defined.

(** C2 as the specification words it fails: the text of an inline element
    is split from the text around it in the same block. *)
Lemma body_text_inline_counterexample :
  BeautifulSoup Fixture.world (lit "inline") = Ok Fixture.inline_doc /\
  find (lit "body") Fixture.inline_doc = Some Fixture.inline_body /\
  SpecWording.block_text (clean_body Fixture.inline_body)
  = lit "Hello world" ++ [LF] ++ lit "Bye" /\
  extract_body_text Fixture.world (lit "inline")
  <> Ok ([], normalize_whitespace
               (SpecWording.block_text (clean_body Fixture.inline_body))).
Proof.
  split; [reflexivity|]. split; [reflexivity|].
  split; [vm_compute; reflexivity|].
  vm_compute. discriminate.
Qed.


(** ** The batch loop *)

Section BatchFacts.

Context {World : Type} (E : Externals World) (cfg : Settings).


(** A [try] block that ends well ends with a row of the first shape. *)
Lemma try_block_ok (url : str) (w : World) (row : ResultRow) :
  fst (try_block E cfg url w) = Ok row ->
  exists final code ttl body, row = success_row url final code ttl body.
Proof.
  unfold try_block.
  destruct (fetch_url E url (timeout cfg) (user_agent cfg) w)
    as [[[[code final] html]|e] w']; simpl; [|discriminate].
  destruct (extract_body_text E html) as [[ttl body]|e]; simpl; [|discriminate].
  intros [= <-]. now exists final, code, ttl, body.
Qed.

Lemma item_row_input_url (url : str) (w : World) :
  input_url (item_row url (fst (try_block E cfg url w))) = url.
Proof.
  destruct (fst (try_block E cfg url w)) as [row|e] eqn:Hrow; simpl;
    [|reflexivity].
  now destruct (try_block_ok _ _ Hrow) as (? & ? & ? & ? & ->).
Qed.

Lemma loop_body_unfold (total : nat) (rows : list ResultRow) (w : World)
  (i : nat) (url : str) :
  loop_body E cfg total (rows, w) (i, url) =
  (rows ++ [item_row url (fst (try_block E cfg url (status_write E i total url w)))],
   pause E cfg (progress E i total
                  (snd (try_block E cfg url (status_write E i total url w))))).
Proof.
  unfold loop_body.
  destruct (try_block E cfg url (status_write E i total url w)) as [[row|e] w'];
    reflexivity.
Qed.

Lemma loop_from_cons (total start : nat) (url : str) (rest : list str)
  (st : list ResultRow * World) :
  loop_from E cfg total start (url :: rest) st =
  loop_from E cfg total (S start) rest (loop_body E cfg total st (start, url)).
Proof. reflexivity. Qed.

Lemma loop_from_app (total : nat) (pre post : list str) :
  forall start st,
    loop_from E cfg total start (pre ++ post) st =
    loop_from E cfg total (start + length pre) post
      (loop_from E cfg total start pre st).
Proof.
  induction pre as [|url pre IH]; intros start st; simpl app.
  - now rewrite Nat.add_0_r.
  - rewrite !loop_from_cons, IH. simpl length.
    now replace (S start + length pre)%nat with (start + S (length pre))%nat
      by lia.
Qed.

(** The loop only appends: the rows it starts with stay in front. *)
Lemma loop_from_rows (total : nat) (urls : list str) :
  forall start rows w,
    loop_from E cfg total start urls (rows, w) =
    (rows ++ fst (loop_from E cfg total start urls ([], w)),
     snd (loop_from E cfg total start urls ([], w))).
Proof.
  induction urls as [|url urls IH]; intros start rows w.
  - simpl. now rewrite app_nil_r.
  - rewrite !loop_from_cons, !loop_body_unfold.
    rewrite IH. rewrite (IH _ ([] ++ _)). simpl.
    now rewrite <- app_assoc.
Qed.

Lemma loop_from_input_urls (total : nat) (urls : list str) :
  forall start w,
    map input_url (fst (loop_from E cfg total start urls ([], w))) = urls.
Proof.
  induction urls as [|url urls IH]; intros start w; [reflexivity|].
  rewrite loop_from_cons, loop_body_unfold, loop_from_rows. simpl.
  now rewrite item_row_input_url, IH.
Qed.

(** A run, cut at one of its items. *)
Lemma run_batch_split (pre post : list str) (url : str) (w : World) :
  let total := length (pre ++ url :: post) in
  let st := loop_from E cfg total (S (S (length pre))) post
              ([], world_after E cfg total pre url w) in
  run_batch E cfg (pre ++ url :: post) w =
  (fst (loop_from E cfg total 1 pre ([], w))
     ++ item_row url (fst (attempt_at E cfg total pre url w)) :: fst st,
   snd st).
Proof.
  intros total st. unfold run_batch. fold total.
  rewrite loop_from_app, loop_from_cons.
  rewrite (surjective_pairing (loop_from E cfg total 1 pre ([], w))).
  rewrite loop_body_unfold, loop_from_rows.
  replace (1 + length pre)%nat with (S (length pre)) by reflexivity.
  unfold st, world_after, attempt_at, world_before. simpl fst. simpl snd.
  now rewrite <- app_assoc.
Qed.

Lemma run_batch_nth (pre post : list str) (url : str) (w : World) :
  nth_error (fst (run_batch E cfg (pre ++ url :: post) w)) (length pre) =
  Some (item_row url
          (fst (attempt_at E cfg (length (pre ++ url :: post)) pre url w))).
Proof.
  rewrite run_batch_split. simpl fst.
  assert (Hlen : length (fst (loop_from E cfg (length (pre ++ url :: post)) 1
                                pre ([], w))) = length pre).
  { rewrite <- (length_map input_url), loop_from_input_urls. reflexivity. }
  rewrite nth_error_app2 by lia. rewrite Hlen, Nat.sub_diag. reflexivity.
Qed.

(** Every row of a run is the row of one of its items. *)
Lemma run_batch_row_origin (urls : list str) (w : World) (row : ResultRow) :
  In row (fst (run_batch E cfg urls w)) ->
  exists pre url post,
    urls = pre ++ url :: post /\
    row = item_row url (fst (attempt_at E cfg (length urls) pre url w)).
Proof.
  intro Hin. apply In_nth_error in Hin as [n Hn].
  assert (Hlt : (n < length urls)%nat).
  { rewrite <- (loop_from_input_urls (length urls) urls 1 w), length_map.
    apply nth_error_Some. unfold run_batch in Hn. congruence. }
  destruct (nth_error urls n) as [url|] eqn:Hurl;
    [|apply nth_error_None in Hurl; lia].
  apply nth_error_split in Hurl as (pre & post & -> & <-).
  exists pre, url, post. split; [reflexivity|].
  rewrite run_batch_nth in Hn. congruence.
Qed.

End BatchFacts.

Example fixture_run :
  map (fun r => (http_status r, body_text r, error r))
      (fst (run_batch Fixture.world Fixture.settings Fixture.urls 0%nat))
  = [ (CInt 200, lit "KEEP", []);
      (CStr [], [], lit "connection refused");
      (CInt 404, lit "Frames" ++ [LF] ++ lit "Please upgrade", []);
      (CStr [], [], lit "cannot parse") ].
Proof. vm_compute. reflexivity. Qed.

Section BatchClaims.

Context {World : Type} (E : Externals World) (cfg : Settings).



(** C8.  In every row whose [error] is empty, [body_len_chars] is the number
    of characters of [body_text]. *)
Theorem body_len_chars_consistent (urls : list str) (w : World)
  (row : ResultRow) :
  In row (fst (run_batch E cfg urls w)) ->
  error row = [] ->
  body_len_chars row = len (body_text row).
Proof.
  intros Hin _.
  destruct (run_batch_row_origin E cfg urls w row Hin)
    as (pre & url & post & _ & ->).
  destruct (fst (attempt_at E cfg (length urls) pre url w)) as [r|e] eqn:Ha;
    simpl; [|reflexivity].
  now destruct (try_block_ok E cfg _ _ Ha) as (? & ? & ? & ? & ->).
Qed.

(** How a [try] block raises: the fetch raises, or the fetch returns and the
    extraction raises. *)
Lemma try_block_raises (url : str) (w : World) (e : exn) :
  fst (try_block E cfg url w) = Raise e <->
  (fst (fetch_url E url (timeout cfg) (user_agent cfg) w) = Raise e \/
   exists code final html,
     fst (fetch_url E url (timeout cfg) (user_agent cfg) w)
     = Ok (code, final, html) /\
     extract_body_text E html = Raise e).
Proof.
  unfold try_block.
  destruct (fetch_url E url (timeout cfg) (user_agent cfg) w)
    as [[[[code final] html]|e0] w']; simpl.
  - destruct (extract_body_text E html) as [[ttl body]|e1] eqn:Hx; simpl.
    + split; [discriminate|].
      intros [H|(c & f & h & [= <- <- <-] & H)]; [discriminate|congruence].
    + split.
      * intros [= <-]. right. now exists code, final, html.
      * intros [H|(c & f & h & [= <- <- <-] & H)]; congruence.
  - split.
    + intros [= <-]. now left.
    + intros [H|(c & f & h & H & _)]; congruence.
Qed.

(** In a world that raises instances of [Exception] only: when the fetch of
    a URL raises an exception, or its extraction does, the batch returns:
    the rows of the URLs before it are followed by the failure row holding
    the message of the exception, then by one row for each remaining URL,
    produced by the loop going on from the world that item left. *)
Theorem exception_caught_at_item (pre post : list str) (url : str) (w : World)
  (e : exn) :
  let total := length (pre ++ url :: post) in
  let w1 := world_before E cfg total pre url w in
  (fst (fetch_url E url (timeout cfg) (user_agent cfg) w1) = Raise e \/
   exists code final html,
     fst (fetch_url E url (timeout cfg) (user_agent cfg) w1)
     = Ok (code, final, html) /\
     extract_body_text E html = Raise e) ->
  let st := loop_from E cfg total (S (S (length pre))) post
              ([], world_after E cfg total pre url w) in
  run_batch E cfg (pre ++ url :: post) w =
  (fst (loop_from E cfg total 1 pre ([], w)) ++ failure_row url e :: fst st,
   snd st) /\
  error (failure_row url e) = exn_str e /\
  map input_url (fst st) = post.
Proof.
  intros total w1 Hraise st.
  apply try_block_raises in Hraise.
  split; [|split; [reflexivity | apply loop_from_input_urls]].
  rewrite run_batch_split. fold total. fold st.
  unfold attempt_at. fold w1. now rewrite Hraise.
Qed.

(** C10.  The row of a URL whose [try] block raised still holds that URL
    in [input_url], while every content field holds its empty value. *)
Theorem failed_row_keeps_input_url (pre post : list str) (url : str)
  (w : World) (e : exn) :
  fst (attempt_at E cfg (length (pre ++ url :: post)) pre url w) = Raise e ->
  exists row,
    nth_error (fst (run_batch E cfg (pre ++ url :: post) w)) (length pre)
    = Some row /\
    input_url row = url /\ content_empty row /\ error row = exn_str e.
Proof.
  intro Hraise. exists (failure_row url e).
  rewrite run_batch_nth, Hraise. simpl.
  repeat split.
Qed.

(** C3, as the code has it.  Every row of a batch is the row of one of its
    URLs.  Where that URL's [try] block returned, [error] is empty and the
    content fields are not all empty ([http_status] is an integer).  Where
    it raised, all content fields are empty and [error] is the message of
    the exception.  So [error] is empty or else all content fields are, and
    never both unless the exception had an empty message. *)
Theorem row_error_or_content (urls : list str) (w : World) (row : ResultRow) :
  In row (fst (run_batch E cfg urls w)) ->
  exists pre url post,
    urls = pre ++ url :: post /\
    match fst (attempt_at E cfg (length urls) pre url w) with
    | Ok r => row = r /\ error row = [] /\ ~ content_empty row
    | Raise e =>
        row = failure_row url e /\ content_empty row /\
        error row = exn_str e /\
        (exn_str e <> [] -> xor (error row = []) (content_empty row))
    end.
Proof.
  intro Hin.
  destruct (run_batch_row_origin E cfg urls w row Hin)
    as (pre & url & post & Hurls & ->).
  exists pre, url, post. split; [assumption|].
  destruct (fst (attempt_at E cfg (length urls) pre url w)) as [r|e] eqn:Ha;
    simpl.
  - destruct (try_block_ok E cfg _ _ Ha) as (? & ? & ? & ? & ->).
    repeat split. intros (_ & H & _). discriminate.
  - assert (Hc : content_empty (failure_row url e)) by (repeat split).
    repeat split. intro Hne. right. split; [exact Hne | exact Hc].
Qed.

End BatchClaims.

(** ** The batch claims on the sample world *)


Lemma body_len_chars_consistent_witness :
  let row := success_row (lit "http://a/") (lit "http://a/home") 200
               (lit "Sample  page") (lit "KEEP") in
  In row (fst (run_batch Fixture.world Fixture.settings Fixture.urls 0%nat)) /\
  error row = [] /\
  body_len_chars row = 4%Z.
Proof.
  intro row.
  assert (Hin : In row (fst (run_batch Fixture.world Fixture.settings
                               Fixture.urls 0%nat)))
    by (vm_compute; left; reflexivity).
  split; [exact Hin|]. split; [reflexivity|].
  exact (@body_len_chars_consistent _ Fixture.world Fixture.settings
           Fixture.urls 0%nat row Hin eq_refl).
Defined.

Lemma exception_caught_at_item_witness :
  let e := {| exn_class := lit "ConnectionError";
              exn_str := lit "connection refused" |} in
  fst (fetch_url Fixture.world (lit "http://down/") 25 (lit "Mozilla/5.0")
         1%nat) = Raise e /\
  map error (fst (run_batch Fixture.world Fixture.settings Fixture.urls 0%nat))
  = [[]; lit "connection refused"; []; lit "cannot parse"].
Proof.
  intro e. split; [reflexivity|].
  change Fixture.urls
    with ([lit "http://a/"]
            ++ lit "http://down/" :: [lit "http://gone/"; lit "http://odd/"]).
  rewrite (proj1 (@exception_caught_at_item _ Fixture.world Fixture.settings
                    [lit "http://a/"]
                    [lit "http://gone/"; lit "http://odd/"]
                    (lit "http://down/") 0%nat e
                    (or_introl eq_refl))).
  vm_compute. reflexivity.
Defined.

Lemma failed_row_keeps_input_url_witness :
  let e := {| exn_class := lit "ParserRejectedMarkup";
              exn_str := lit "cannot parse" |} in
  fst (attempt_at Fixture.world Fixture.settings 4
         (map lit ["http://a/"; "http://down/"; "http://gone/"]%string)
         (lit "http://odd/") 0%nat) = Raise e /\
  exists row,
    nth_error (fst (run_batch Fixture.world Fixture.settings Fixture.urls 0%nat))
      3 = Some row /\
    input_url row = lit "http://odd/" /\ content_empty row /\
    error row = lit "cannot parse".
Proof.
  intro e. split; [reflexivity|].
  exact (@failed_row_keeps_input_url _ Fixture.world Fixture.settings
           (map lit ["http://a/"; "http://down/"; "http://gone/"]%string) []
           (lit "http://odd/") 0%nat e eq_refl).
Defined.

Lemma row_error_or_content_witness :
  let row := failure_row (lit "http://down/")
               {| exn_class := lit "ConnectionError";
                  exn_str := lit "connection refused" |} in
  In row (fst (run_batch Fixture.world Fixture.settings Fixture.urls 0%nat)) /\
  exists pre url post,
    Fixture.urls = pre ++ url :: post /\
    match fst (attempt_at Fixture.world Fixture.settings 4 pre url 0%nat) with
    | Ok r => row = r /\ error row = [] /\ ~ content_empty row
    | Raise e =>
        row = failure_row url e /\ content_empty row /\
        error row = exn_str e /\
        (exn_str e <> [] -> xor (error row = []) (content_empty row))
    end.
Proof.
  intro row.
  assert (Hin : In row (fst (run_batch Fixture.world Fixture.settings
                               Fixture.urls 0%nat)))
    by (vm_compute; right; left; reflexivity).
  split; [exact Hin|].
  exact (@row_error_or_content _ Fixture.world Fixture.settings Fixture.urls
           0%nat row Hin).
Defined.

(** C3 as the specification words it fails: a URL whose fetch raises an
    exception with an empty message gets a row in which [error] is empty and
    so are all content fields. *)
Lemma row_error_xor_content_counterexample :
  ~ (forall row,
        In row (fst (run_batch Fixture.world Fixture.settings
                       [lit "http://big/"] 0%nat)) ->
        xor (error row = []) (content_empty row)).
Proof.
  intro H.
  specialize (H (failure_row (lit "http://big/")
                   {| exn_class := lit "MemoryError"; exn_str := [] |})).
  destruct H as [[_ Hn]|[Hn _]].
  - vm_compute. left. reflexivity.
  - apply Hn. repeat split.
  - apply Hn. reflexivity.
Qed.

(** * Further properties *)

(** ** Normalised text, in full *)

Lemma blanks_ok_no_tab (s : str) : forall b, blanks_ok b s -> ~ In TAB s.
Proof.
  induction s as [|c s IH]; intros b H; simpl; [tauto|].
  simpl in H. destruct H as [Hc H]. intros [Heq|Hin]; [congruence|].
  destruct (c =? SP)%N; [destruct H as [_ H]|]; now apply IH in H.
Qed.

Lemma blanks_ok_no_pair (l1 l2 : str) :
  forall b, ~ blanks_ok b (l1 ++ [SP; SP] ++ l2).
Proof.
  induction l1 as [|c l1 IH]; intros b H; simpl in H.
  - destruct H as (_ & _ & _ & Hb & _). discriminate.
  - destruct H as [_ H].
    destruct (c =? SP)%N; [destruct H as [_ H]|]; now apply IH in H.
Qed.

Lemma newlines_ok_no_triple (l1 l2 : str) :
  forall k, ~ newlines_ok k (l1 ++ [LF; LF; LF] ++ l2).
Proof.
  induction l1 as [|c l1 IH]; intros k H; simpl in H.
  - destruct H as (_ & _ & H & _). lia.
  - destruct (c =? LF)%N; [destruct H as [_ H]|]; now apply IH in H.
Qed.

Lemma has_infix_cons (pat s : str) (c : char) :
  has_infix pat s -> has_infix pat (c :: s).
Proof. intros (l1 & l2 & ->). now exists (c :: l1), l2. Qed.

Lemma no_pair_blanks_ok (s : str) :
  forall b : bool,
    ~ In TAB s -> ~ has_infix [SP; SP] (if b then SP :: s else s) ->
            blanks_ok b s.
Proof.
  induction s as [|c s IH]; intros b Htab Hpair; simpl; [trivial|].
  assert (Hs : ~ has_infix [SP; SP] (c :: s)).
  { destruct b; [|exact Hpair]. intro H. now apply Hpair, has_infix_cons. }
  split; [intros ->; apply Htab; now left|].
  assert (Htab' : ~ In TAB s) by (intro; apply Htab; now right).
  destruct (N.eqb_spec c SP) as [->|Hc].
  - split.
    + destruct b; [|reflexivity]. exfalso. apply Hpair. now exists [], s.
    + apply IH; assumption.
  - apply IH; [assumption|]. intro H. now apply Hs, has_infix_cons.
Qed.

Lemma no_triple_newlines_ok (s : str) :
  forall k, ~ has_infix [LF; LF; LF] (repeat LF k ++ s) -> newlines_ok k s.
Proof.
  induction s as [|c s IH]; intros k H; simpl; [trivial|].
  destruct (N.eqb_spec c LF) as [->|Hc].
  - assert (Hrep : repeat LF k ++ LF :: s = repeat LF (S k) ++ s).
    { change (LF :: s) with ([LF] ++ s).
      now rewrite app_assoc, <- repeat_cons. }
    split.
    + destruct k as [|[|k]]; [lia | lia |]. exfalso. apply H.
      exists (repeat LF k), s. rewrite Hrep.
      replace (S (S (S k))) with (k + 3)%nat by lia.
      now rewrite repeat_app, <- app_assoc.
    + apply IH. now rewrite <- Hrep.
  - apply (IH 0%nat). simpl. intros (l1 & l2 & Heq). apply H.
    exists (repeat LF k ++ c :: l1), l2. rewrite Heq.
    now rewrite <- app_assoc.
Qed.

Lemma rstrip_last (s l : str) (c : char) :
  rstrip s = l ++ [c] -> isspace c = false.
Proof.
  revert l. induction s as [|d s IH]; intros l H; simpl in H.
  - now destruct l.
  - destruct (rstrip s) as [|e r] eqn:Hr.
    + destruct (isspace d) eqn:Hd; [now destruct l|].
      destruct l as [|x l]; [now injection H as <-|].
      injection H as _ H. now destruct l.
    + destruct l as [|x l]; [discriminate|].
      injection H as _ H. now apply (IH l).
Qed.

Lemma rstrip_fixed (s : str) :
  (forall l c, s = l ++ [c] -> isspace c = false) -> rstrip s = s.
Proof.
  induction s as [|d s IH]; intro H; simpl; [reflexivity|].
  destruct s as [|e s].
  - simpl. now rewrite (H [] d eq_refl).
  - rewrite IH; [reflexivity|].
    intros l c Heq. apply (H (d :: l) c). now rewrite Heq.
Qed.

Lemma normal_form_shape (s : str) :
  normal_form s <->
  no_cr s /\ blanks_ok false s /\ newlines_ok 0 s /\ strip s = s.
Proof.
  unfold normal_form, no_cr. rewrite Forall_forall. split.
  - intros (Hcr & Htab & Hsp & Hlf & Hstrip). repeat split.
    + intros c Hin ->. contradiction.
    + now apply no_pair_blanks_ok.
    + now apply no_triple_newlines_ok.
    + exact Hstrip.
  - intros (Hcr & Hbl & Hnl & Hstrip). repeat split.
    + intro Hin. now apply (Hcr CR).
    + now apply blanks_ok_no_tab in Hbl.
    + intros (l1 & l2 & ->). now apply blanks_ok_no_pair in Hbl.
    + intros (l1 & l2 & ->). now apply newlines_ok_no_triple in Hnl.
    + exact Hstrip.
Qed.

Lemma normalize_whitespace_normal (t : str) :
  normal_form (normalize_whitespace t).
Proof.
  apply normal_form_shape.
  destruct (normalize_whitespace_shape t) as (Hcr & Hbl & Hnl).
  repeat split; try assumption.
  unfold normalize_whitespace. apply strip_idempotent.
Qed.

Lemma normal_form_fixed (t : str) :
  normal_form t -> normalize_whitespace t = t.
Proof.
  intro H. apply normal_form_shape in H as (Hcr & Hbl & Hnl & Hstrip).
  unfold normalize_whitespace.
  now rewrite (sub_crlf_fixed Hcr), (sub_blanks_fixed _ Hbl),
    (sub_newlines_fixed _ Hnl).
Qed.

(** X1.  Text out of [normalize_whitespace] has no carriage return and no
    tab, nowhere two spaces in a row and nowhere three line feeds in a
    row. *)
Theorem normalize_whitespace_collapsed (t : str) :
  ~ In CR (normalize_whitespace t) /\
  ~ In TAB (normalize_whitespace t) /\
  ~ has_infix [SP; SP] (normalize_whitespace t) /\
  ~ has_infix [LF; LF; LF] (normalize_whitespace t).
Proof.
  destruct (normalize_whitespace_normal t) as (H1 & H2 & H3 & H4 & _).
  now repeat split.
Qed.

(** X2.  Text out of [normalize_whitespace] neither starts nor ends with a
    whitespace character, Unicode whitespace included. *)
Theorem normalize_whitespace_trimmed (t : str) :
  (forall c rest, normalize_whitespace t = c :: rest -> isspace c = false) /\
  (forall front c, normalize_whitespace t = front ++ [c] -> isspace c = false).
Proof.
  unfold normalize_whitespace, strip. split.
  - intros c rest H.
    assert (Hh := rstrip_head _ (lstrip_head (sub_newlines (sub_blanks
                                                        (sub_crlf t))))).
    now rewrite H in Hh.
  - intros front c H. now apply rstrip_last in H.
Qed.

(** X3.  The strings [normalize_whitespace] returns unchanged are exactly
    those in normal form. *)
Theorem normalize_whitespace_fixed_points (t : str) :
  normalize_whitespace t = t <-> normal_form t.
Proof.
  split; [|apply normal_form_fixed].
  intro H. rewrite <- H. apply normalize_whitespace_normal.
Qed.

Lemma normalize_whitespace_fixed_points_witness :
  normalize_whitespace (lit "a b") = lit "a b" /\ normal_form (lit "a b").
Proof.
  assert (H : normalize_whitespace (lit "a b") = lit "a b")
    by (vm_compute; reflexivity).
  split; [exact H|].
  exact (proj1 (normalize_whitespace_fixed_points (lit "a b")) H).
Defined.

(** ** What normalisation keeps *)

Lemma isspace_CR : isspace CR = true. Proof. reflexivity. Qed.
Lemma isspace_LF : isspace LF = true. Proof. reflexivity. Qed.
Lemma isspace_SP : isspace SP = true. Proof. reflexivity. Qed.

Lemma is_blank_isspace (c : char) : is_blank c = true -> isspace c = true.
Proof. intro H. now apply is_blank_true in H as [->| ->]. Qed.

Lemma is_lf_isspace (c : char) : is_lf c = true -> isspace c = true.
Proof. intro H. now apply is_lf_true in H as ->. Qed.

Lemma sub_crlf_bounded (n : nat) :
  forall s, (length s <= n)%nat ->
            visible (sub_crlf s) = visible s /\
            (length (sub_crlf s) <= length s)%nat /\
            (Forall (fun c => isspace c = true) s ->
             Forall (fun c => isspace c = true) (sub_crlf s)).
Proof.
  induction n as [|n IH]; intros [|c s] Hlen; simpl in *;
    try (repeat split; auto; fail); try lia.
  destruct (N.eqb_spec c CR) as [->|Hc].
  - destruct s as [|d s].
    + repeat split; auto.
    + destruct (N.eqb_spec d LF) as [->|Hd].
      * destruct (IH s) as (Hv & Hl & Hf); [simpl in *; lia|].
        simpl. repeat split; [exact Hv | lia |].
        intro H. constructor; [reflexivity|]. apply Hf.
        now inversion H as [|? ? _ H']; inversion H'.
      * destruct (IH (d :: s)) as (Hv & Hl & Hf); [simpl in *; lia|].
        repeat split; [exact Hv | simpl in *; lia |].
        intro H. constructor; [reflexivity|]. apply Hf. now inversion H.
  - destruct (IH s) as (Hv & Hl & Hf); [lia|].
    unfold visible in *. simpl. rewrite Hv. repeat split; [lia|].
    intro H. inversion H; subst. constructor; auto.
Qed.

Lemma flush_run_length (min : nat) (repl run : str) :
  (length repl <= min)%nat ->
  (length (flush_run min repl run) <= length run)%nat.
Proof.
  intro H. unfold flush_run.
  destruct (Nat.leb_spec min (length run)); lia.
Qed.

Lemma sub_runs_length cls (min : nat) (repl : str) :
  (length repl <= min)%nat ->
  forall text run,
    (length (sub_runs cls min repl run text) <= length run + length text)%nat.
Proof.
  intros Hrepl text. induction text as [|c rest IH]; intro run; simpl.
  - pose proof (flush_run_length repl run Hrepl). lia.
  - destruct (cls c).
    + specialize (IH (run ++ [c])). rewrite length_app in IH. simpl in IH. lia.
    + rewrite length_app. simpl.
      pose proof (flush_run_length repl run Hrepl).
      specialize (IH []). simpl in IH. lia.
Qed.

Lemma visible_spaces (s : str) :
  Forall (fun c => isspace c = true) s -> visible s = [].
Proof.
  induction 1 as [|c s Hc _ IH]; [reflexivity|].
  unfold visible in *. simpl. now rewrite Hc.
Qed.

Lemma visible_app (a b : str) : visible (a ++ b) = visible a ++ visible b.
Proof. apply filter_app. Qed.

Lemma sub_runs_visible cls (min : nat) (repl : str) :
  (forall c, cls c = true -> isspace c = true) ->
  Forall (fun c => isspace c = true) repl ->
  forall text run,
    Forall (fun c => isspace c = true) run ->
    visible (sub_runs cls min repl run text) = visible text.
Proof.
  intros Hcls Hrepl text.
  induction text as [|c rest IH]; intros run Hrun; simpl.
  - apply visible_spaces. now apply flush_run_Forall.
  - destruct (cls c) eqn:Hc.
    + rewrite IH.
      * unfold visible. simpl. now rewrite (Hcls c Hc).
      * apply Forall_app. split; [assumption|]. constructor; auto.
    + rewrite visible_app, visible_spaces by now apply flush_run_Forall.
      unfold visible in *. simpl. now rewrite (IH [] (Forall_nil _)).
Qed.

Lemma lstrip_visible (s : str) : visible (lstrip s) = visible s.
Proof.
  induction s as [|c s IH]; [reflexivity|]. unfold visible in *. simpl.
  destruct (isspace c) eqn:Hc; simpl; [exact IH|]. now rewrite Hc.
Qed.

Lemma rstrip_visible (s : str) : visible (rstrip s) = visible s.
Proof.
  induction s as [|c s IH]; [reflexivity|].
  change (c :: s) with ([c] ++ s) at 2. rewrite visible_app, <- IH.
  simpl rstrip. destruct (rstrip s) as [|d r].
  - unfold visible. simpl.
    destruct (isspace c) eqn:Hc; simpl; rewrite ?Hc; reflexivity.
  - change (c :: d :: r) with ([c] ++ d :: r). now rewrite visible_app.
Qed.

Lemma lstrip_length (s : str) : (length (lstrip s) <= length s)%nat.
Proof.
  induction s as [|c s IH]; simpl; [lia|]. destruct (isspace c); simpl; lia.
Qed.

Lemma rstrip_length (s : str) : (length (rstrip s) <= length s)%nat.
Proof.
  induction s as [|c s IH]; simpl; [lia|].
  destruct (rstrip s); [destruct (isspace c)|]; simpl in *; lia.
Qed.

Lemma strip_spaces (s : str) :
  Forall (fun c => isspace c = true) s -> strip s = [].
Proof.
  unfold strip. induction 1 as [|c s Hc _ IH]; [reflexivity|].
  simpl. now rewrite Hc.
Qed.

Lemma normalize_whitespace_visible (t : str) :
  visible (normalize_whitespace t) = visible t.
Proof.
  unfold normalize_whitespace, strip, sub_newlines, sub_blanks.
  rewrite rstrip_visible, lstrip_visible.
  rewrite sub_runs_visible;
    [|apply is_lf_isspace | repeat constructor | constructor].
  rewrite sub_runs_visible;
    [|apply is_blank_isspace | repeat constructor | constructor].
  apply (sub_crlf_bounded (n := length t)). lia.
Qed.

(** X4.  [normalize_whitespace] leaves every character that is not
    whitespace in place: the visible characters of its result are those of
    its argument, in the same order. *)
Theorem normalize_whitespace_keeps_visible (t : str) :
  visible (normalize_whitespace t) = visible t.
Proof.
  unfold normalize_whitespace, strip.
  rewrite rstrip_visible, lstrip_visible.
  transitivity (visible (sub_blanks (sub_crlf t))).
  - apply sub_runs_visible;
      [apply is_lf_isspace | repeat constructor | constructor].
  - transitivity (visible (sub_crlf t)).
    + apply sub_runs_visible;
        [apply is_blank_isspace | repeat constructor | constructor].
    + apply (sub_crlf_bounded (n := length t)). lia.
Qed.

(** X5.  [normalize_whitespace] never makes a text longer. *)
Theorem normalize_whitespace_shorter (t : str) :
  (length (normalize_whitespace t) <= length t)%nat.
Proof.
  unfold normalize_whitespace, strip, sub_newlines, sub_blanks.
  pose proof (rstrip_length (lstrip (sub_runs is_lf 3 [LF; LF] []
                (sub_runs is_blank 1 [SP] [] (sub_crlf t))))) as H1.
  pose proof (lstrip_length (sub_runs is_lf 3 [LF; LF] []
                (sub_runs is_blank 1 [SP] [] (sub_crlf t)))) as H2.
  pose proof (@sub_runs_length is_lf 3 [LF; LF] ltac:(simpl; lia)
                (sub_runs is_blank 1 [SP] [] (sub_crlf t)) []) as H3.
  pose proof (@sub_runs_length is_blank 1 [SP] ltac:(simpl; lia)
                (sub_crlf t) []) as H4.
  pose proof (proj1 (proj2 (sub_crlf_bounded (n := length t) t
                              (Nat.le_refl _)))) as H5.
  simpl in H3, H4. lia.
Qed.

(** X6.  The result of [normalize_whitespace] is empty exactly when every
    character of the text is whitespace (the empty text included). *)
Theorem normalize_whitespace_empty (t : str) :
  normalize_whitespace t = [] <-> Forall (fun c => isspace c = true) t.
Proof.
  split.
  - intro H. pose proof (normalize_whitespace_visible t) as Hv.
    rewrite H in Hv. apply Forall_forall. intros c Hin.
    destruct (isspace c) eqn:Hc; [reflexivity|].
    assert (Hvis : In c (visible t))
      by (apply filter_In; split; [exact Hin | now rewrite Hc]).
    rewrite <- Hv in Hvis. contradiction.
  - intro H. unfold normalize_whitespace. apply strip_spaces.
    apply sub_runs_Forall; [repeat constructor | constructor |].
    apply sub_runs_Forall; [repeat constructor | constructor |].
    now apply (sub_crlf_bounded (n := length t)).
Qed.

Lemma normalize_whitespace_empty_witness :
  normalize_whitespace [SP; TAB; CR; LF; 160%N; 8203%N; 12288%N]
  = [8203%N] /\
  normalize_whitespace [SP; TAB; CR; LF; 160%N; 12288%N] = [].
Proof.
  split; [vm_compute; reflexivity|].
  apply (proj2 (normalize_whitespace_empty _)).
  repeat constructor.
Defined.

(** ** Reading the list of URLs *)

Example read_text_file :
  read_urls_from_upload UploadFixture.readers UploadFixture.text_file
  = Ok [lit "http://a/"; lit "http://b/"].
Proof. vm_compute. reflexivity. Qed.

Example read_messy_file :
  read_urls_from_upload UploadFixture.readers UploadFixture.messy_file
  = Ok [lit "http://a/"; lit "http://b/"; lit "http://a/"].
Proof. vm_compute. reflexivity. Qed.

Example read_csv_file :
  read_urls_from_upload UploadFixture.readers UploadFixture.csv_file
  = Ok [lit "http://a/"; lit "http://b/"; lit "http://a/"].
Proof. vm_compute. reflexivity. Qed.

Example read_xlsx_file :
  read_urls_from_upload UploadFixture.readers UploadFixture.xlsx_file
  = Raise {| exn_class := lit "IndexError";
             exn_str := lit "single positional indexer is out-of-bounds" |}.
Proof. vm_compute. reflexivity. Qed.

Example read_pdf_file :
  read_urls_from_upload UploadFixture.readers UploadFixture.pdf_file
  = Raise {| exn_class := lit "ValueError"; exn_str := unsupported_message |}.
Proof. vm_compute. reflexivity. Qed.

Example dedupe_sample :
  dedupe [lit "http://a"; lit "http://b"; lit "http://a"]
  = [lit "http://a"; lit "http://b"].
Proof. vm_compute. reflexivity. Qed.

(** ** Dropping repeated URLs *)

Lemma str_eqb_neq (a b : str) : str_eqb a b = false <-> a <> b.
Proof.
  unfold str_eqb. destruct (list_eq_dec N.eq_dec a b); split;
    congruence || discriminate.
Qed.

Lemma str_eqb_sym (a b : str) : str_eqb a b = str_eqb b a.
Proof.
  destruct (str_eqb b a) eqn:H.
  - apply str_eqb_eq in H as ->. apply str_eqb_refl.
  - apply str_eqb_neq. apply str_eqb_neq in H. congruence.
Qed.

(** The keys after [d[key] = value]. *)
Lemma dict_setitem_keys {V : Type} (key : str) (value : V)
  (d : list (str * V)) :
  map fst (dict_setitem key value d) =
  if existsb (str_eqb key) (map fst d) then map fst d
  else map fst d ++ [key].
Proof.
  induction d as [|[k v] d IH]; simpl; [reflexivity|].
  rewrite (str_eqb_sym key k).
  destruct (str_eqb k key) eqn:Hk; simpl; [reflexivity|].
  rewrite IH. now destruct (existsb (str_eqb key) (map fst d)).
Qed.

Lemma existsb_str_In (key : str) (l : list str) :
  existsb (str_eqb key) l = true <-> In key l.
Proof.
  rewrite existsb_exists. split.
  - intros (x & Hin & Hx). now apply str_eqb_eq in Hx as ->.
  - intro Hin. exists key. split; [exact Hin | apply str_eqb_refl].
Qed.

Lemma filter_filter_str (p q : str -> bool) (l : list str) :
  filter p (filter q l) = filter (fun x => q x && p x) l.
Proof.
  induction l as [|x l IH]; simpl; [reflexivity|].
  destruct (q x); simpl; [destruct (p x)|]; now rewrite IH.
Qed.

(** The keys of the dictionary as the loop of [fromkeys] goes on from a
    dictionary [d]. *)
Lemma fromkeys_from (urls : list str) :
  forall d : list (str * unit),
    map fst (fold_left (fun d key => dict_setitem key tt d) urls d) =
    map fst d
      ++ filter (fun x => negb (existsb (str_eqb x) (map fst d)))
                (first_occurrences urls).
Proof.
  induction urls as [|u urls IH]; intro d; simpl.
  - now rewrite app_nil_r.
  - rewrite IH, dict_setitem_keys.
    destruct (existsb (str_eqb u) (map fst d)) eqn:Hu; simpl.
    + f_equal. rewrite filter_filter_str. apply filter_ext_in.
      intros x _. destruct (str_eqb x u) eqn:Hx; simpl; [|reflexivity].
      apply str_eqb_eq in Hx as ->. now rewrite Hu.
    + rewrite <- app_assoc. simpl. f_equal. f_equal.
      rewrite filter_filter_str. apply filter_ext. intro x.
      rewrite existsb_app. simpl. rewrite orb_false_r.
      rewrite negb_orb. apply andb_comm.
Qed.

Lemma dedupe_spec (urls : list str) : dedupe urls = first_occurrences urls.
Proof.
  unfold dedupe, dict_fromkeys. rewrite fromkeys_from. simpl.
  induction (first_occurrences urls) as [|x l IH]; simpl; congruence.
Qed.

Lemma first_occurrences_In (urls : list str) (x : str) :
  In x (first_occurrences urls) <-> In x urls.
Proof.
  induction urls as [|u urls IH]; simpl; [tauto|].
  rewrite filter_In, IH. split.
  - intros [H|[H _]]; auto.
  - intros [H|H]; [now left|].
    destruct (str_eqb x u) eqn:Hx.
    + apply str_eqb_eq in Hx. left. congruence.
    + right. now split.
Qed.

Lemma first_occurrences_NoDup (urls : list str) :
  NoDup (first_occurrences urls).
Proof.
  induction urls as [|u urls IH]; simpl; constructor.
  - rewrite filter_In. intros [_ H]. now rewrite str_eqb_refl in H.
  - now apply NoDup_filter.
Qed.

Lemma first_occurrences_fixed (urls : list str) :
  NoDup urls -> first_occurrences urls = urls.
Proof.
  induction 1 as [|u urls Hu _ IH]; simpl; [reflexivity|].
  rewrite IH. f_equal. apply forallb_filter_id. apply forallb_forall.
  intros x Hx. apply negb_true_iff, str_eqb_neq. congruence.
Qed.

Lemma subseq_refl {A : Type} (l : list A) : subseq l l.
Proof. induction l; constructor; assumption. Qed.

Lemma subseq_trans {A : Type} (a b c : list A) :
  subseq a b -> subseq b c -> subseq a c.
Proof.
  intros Hab Hbc. revert a Hab.
  induction Hbc as [|x b c _ IH|x b c _ IH]; intros a Hab.
  - exact Hab.
  - constructor. now apply IH.
  - inversion Hab; subst; constructor; now apply IH.
Qed.

Lemma subseq_filter {A : Type} (p : A -> bool) (l : list A) :
  subseq (filter p l) l.
Proof.
  induction l as [|x l IH]; simpl; [constructor|].
  destruct (p x); constructor; assumption.
Qed.

Lemma subseq_app {A : Type} (a b c d : list A) :
  subseq a b -> subseq c d -> subseq (a ++ c) (b ++ d).
Proof.
  intros Hab Hcd. induction Hab as [|x a b _ IH|x a b _ IH]; simpl;
    [exact Hcd | constructor; exact IH | constructor; exact IH].
Qed.

Lemma first_occurrences_subseq (urls : list str) :
  subseq (first_occurrences urls) urls.
Proof.
  induction urls as [|u urls IH]; simpl; [constructor|].
  apply subseq_keep. eapply subseq_trans; [apply subseq_filter | exact IH].
Qed.

(** X7.  [list(dict.fromkeys(urls))] keeps the first occurrence of each URL
    and keeps these in the order they come. *)
Theorem dedupe_first_occurrences (urls : list str) :
  dedupe urls = first_occurrences urls /\ subseq (dedupe urls) urls.
Proof.
  rewrite dedupe_spec. split; [reflexivity | apply first_occurrences_subseq].
Qed.

(** X8.  The deduplicated list has no URL twice, and holds exactly the URLs
    of the list read. *)
Theorem dedupe_same_urls (urls : list str) :
  NoDup (dedupe urls) /\ forall u, In u (dedupe urls) <-> In u urls.
Proof.
  rewrite dedupe_spec. split;
    [apply first_occurrences_NoDup | intro; apply first_occurrences_In].
Qed.

(** X9.  A list without repeats comes back as it is; so deduplicating
    twice is deduplicating once. *)
Theorem dedupe_idempotent (urls : list str) :
  (NoDup urls -> dedupe urls = urls) /\ dedupe (dedupe urls) = dedupe urls.
Proof.
  split.
  - intro H. rewrite dedupe_spec. now apply first_occurrences_fixed.
  - rewrite !dedupe_spec. apply first_occurrences_fixed,
      first_occurrences_NoDup.
Qed.

Lemma dedupe_idempotent_witness :
  NoDup [lit "http://a"; lit "http://b"] /\
  dedupe [lit "http://a"; lit "http://b"] = [lit "http://a"; lit "http://b"].
Proof.
  assert (H : NoDup [lit "http://a"; lit "http://b"]).
  { repeat constructor; simpl; intuition discriminate. }
  split; [exact H|].
  exact (proj1 (dedupe_idempotent [lit "http://a"; lit "http://b"]) H).
Defined.

Lemma existsb_dedupe (x : str) (l : list str) :
  existsb (str_eqb x) (dedupe l) = existsb (str_eqb x) l.
Proof.
  apply eq_iff_eq_true. rewrite !existsb_str_In, dedupe_spec.
  apply first_occurrences_In.
Qed.

(** X10.  Deduplicating two lists put end to end gives the first list
    deduplicated, then what the second adds to it. *)
Theorem dedupe_app (l1 l2 : list str) :
  dedupe (l1 ++ l2) =
  dedupe l1 ++ filter (fun x => negb (existsb (str_eqb x) l1)) (dedupe l2).
Proof.
  unfold dedupe at 1. unfold dict_fromkeys. rewrite fold_left_app.
  rewrite fromkeys_from. fold (dict_fromkeys l1). fold (dedupe l1).
  rewrite <- dedupe_spec. f_equal. apply filter_ext. intro x.
  now rewrite existsb_dedupe.
Qed.

(** ** Lines and files *)

Lemma stripped_nonempty_clean (items : list str) :
  Forall (fun u => u <> [] /\ strip u = u) (stripped_nonempty items).
Proof.
  apply Forall_forall. intros u Hu. unfold stripped_nonempty in Hu.
  apply filter_In in Hu as [Hin Hne]. apply in_map_iff in Hin as (x & <- & _).
  split; [|apply strip_idempotent].
  intro H. rewrite H in Hne. discriminate.
Qed.

Lemma stripped_nonempty_fixed (items : list str) :
  Forall (fun u => u <> [] /\ strip u = u) items ->
  stripped_nonempty items = items.
Proof.
  unfold stripped_nonempty.
  induction 1 as [|u items [Hne Hs] _ IH]; simpl; [reflexivity|].
  rewrite Hs, IH. destruct (str_eqb u []) eqn:Hu; [|reflexivity].
  now apply str_eqb_eq in Hu.
Qed.

Lemma frame_urls_clean (df : DataFrame) (urls : list str) :
  frame_urls df = Ok urls ->
  Forall (fun u => u <> [] /\ strip u = u) urls.
Proof.
  unfold frame_urls, series_urls.
  destruct (List.find (has_column df) url_columns); [|destruct df as [|[? ?] ?]];
    intros [= <-]; apply stripped_nonempty_clean.
Qed.

(** X11.  Whatever the kind of file, every URL [read_urls_from_upload]
    returns is non-empty and has no whitespace at either end. *)
Theorem read_urls_clean (R : Readers) (uploaded_file : UploadedFile)
  (urls : list str) :
  read_urls_from_upload R uploaded_file = Ok urls ->
  Forall (fun u => u <> [] /\ strip u = u) urls.
Proof.
  unfold read_urls_from_upload.
  destruct (endswith _ (lit ".txt")).
  { intros [= <-]. apply stripped_nonempty_clean. }
  destruct (endswith _ (lit ".csv")).
  { destruct (read_csv R _); simpl; [apply frame_urls_clean | discriminate]. }
  destruct (endswith _ (lit ".xlsx")); [|discriminate].
  destruct (read_excel R _); simpl; [apply frame_urls_clean | discriminate].
Qed.

Lemma read_urls_clean_witness :
  read_urls_from_upload UploadFixture.readers UploadFixture.csv_file
  = Ok [lit "http://a/"; lit "http://b/"; lit "http://a/"] /\
  Forall (fun u => u <> [] /\ strip u = u)
         [lit "http://a/"; lit "http://b/"; lit "http://a/"].
Proof.
  assert (H : read_urls_from_upload UploadFixture.readers
                UploadFixture.csv_file
              = Ok [lit "http://a/"; lit "http://b/"; lit "http://a/"])
    by (vm_compute; reflexivity).
  split; [exact H|].
  exact (read_urls_clean _ _ H).
Defined.

(** X12.  A table yields URLs unless it has no column at all: then, and
    only then, reading its first column raises. *)
Theorem frame_urls_raises (df : DataFrame) :
  (exists e, frame_urls df = Raise e) <-> df = [].
Proof.
  split.
  - intros [e H]. unfold frame_urls in H.
    destruct (List.find (has_column df) url_columns); [discriminate|].
    now destruct df as [|[? ?] ?].
  - intros ->. eexists. reflexivity.
Qed.

Lemma frame_urls_raises_witness :
  frame_urls [] =
  Raise {| exn_class := lit "IndexError";
           exn_str := lit "single positional indexer is out-of-bounds" |} /\
  ([] : DataFrame) = [].
Proof.
  split; [reflexivity|].
  exact (proj1 (frame_urls_raises []) (ex_intro _ _ eq_refl)).
Defined.

Lemma splitlines_from_bounded (n : nat) :
  forall text cur,
    (length text <= n)%nat ->
    Forall (fun c => is_linebreak c = false) cur ->
    Forall (Forall (fun c => is_linebreak c = false))
           (splitlines_from cur text) /\
    concat (splitlines_from cur text) =
    cur ++ filter (fun c => negb (is_linebreak c)) text.
Proof.
  assert (Hnil : forall cur,
             Forall (fun c => is_linebreak c = false) cur ->
             Forall (Forall (fun c => is_linebreak c = false))
                    (splitlines_from cur []) /\
             concat (splitlines_from cur []) = cur ++ []).
  { intros [|c cur] Hcur; simpl; [now split|].
    rewrite !app_nil_r.
    split; [constructor; [exact Hcur | constructor] | reflexivity]. }
  induction n as [|n IH]; intros [|c rest] cur Hlen Hcur;
    try (now apply Hnil); simpl in Hlen; try lia.
  simpl. destruct (is_linebreak c) eqn:Hc; simpl.
  - assert (Hrest : exists text', (length text' <= n)%nat /\
              filter (fun c => negb (is_linebreak c)) text'
              = filter (fun c => negb (is_linebreak c)) rest /\
              match rest with
              | d :: rest' =>
                  if (c =? CR)%N && (d =? LF)%N then splitlines_from [] rest'
                  else splitlines_from [] rest
              | [] => splitlines_from [] rest
              end = splitlines_from [] text').
    { destruct rest as [|d rest']; [exists []; simpl; repeat split; lia|].
      destruct ((c =? CR)%N && (d =? LF)%N) eqn:Hcd.
      - exists rest'. simpl in *. repeat split; [lia|].
        apply andb_true_iff in Hcd as [_ Hd]. apply N.eqb_eq in Hd as ->.
        reflexivity.
      - exists (d :: rest'). simpl in *. repeat split. lia. }
    destruct Hrest as (text' & Hlen' & Hfil & ->).
    destruct (IH text' [] Hlen' (Forall_nil _)) as [Hall Hcat].
    split; [constructor; assumption|].
    simpl. now rewrite Hcat, Hfil.
  - destruct (IH rest (cur ++ [c])) as [Hall Hcat]; [lia | |].
    { apply Forall_app. split; [assumption|]. now constructor. }
    split; [exact Hall|]. now rewrite Hcat, <- app_assoc.
Qed.

(** X13.  [splitlines] drops the line breaks and nothing else: no line
    holds a break character, and the lines put end to end are the text
    without its break characters. *)
Theorem splitlines_keeps_text (text : str) :
  Forall (Forall (fun c => is_linebreak c = false)) (splitlines text) /\
  concat (splitlines text) = filter (fun c => negb (is_linebreak c)) text.
Proof.
  apply (@splitlines_from_bounded (length text) text [] (Nat.le_refl _)).
  constructor.
Qed.

Lemma endswith_app (a suffix : str) : endswith (a ++ suffix) suffix = true.
Proof.
  unfold endswith. apply str_eqb_eq.
  rewrite length_app, Nat.add_sub, skipn_app, skipn_all, Nat.sub_diag.
  reflexivity.
Qed.

Lemma lower_app (a b : str) : lower (a ++ b) = lower a ++ lower b.
Proof. apply flat_map_app. Qed.

Lemma splitlines_from_line (u : str) :
  Forall (fun c => is_linebreak c = false) u ->
  forall cur text,
    splitlines_from cur (u ++ text) = splitlines_from (cur ++ u) text.
Proof.
  induction 1 as [|c u Hc _ IH]; intros cur text; simpl.
  - now rewrite app_nil_r.
  - rewrite Hc, IH, <- app_assoc. reflexivity.
Qed.

Lemma splitlines_from_sep (sep cur text : str) :
  sep = [LF] \/ sep = [CR; LF] ->
  splitlines_from cur (sep ++ text) = cur :: splitlines_from [] text.
Proof. intros [->| ->]; simpl; [now destruct text | reflexivity]. Qed.

Lemma splitlines_terminated (sep : str) (lines : list str) :
  sep = [LF] \/ sep = [CR; LF] ->
  Forall (Forall (fun c => is_linebreak c = false)) lines ->
  splitlines (concat (map (fun u => u ++ sep) lines)) = lines.
Proof.
  intros Hsep. unfold splitlines.
  induction 1 as [|u lines Hu _ IH]; simpl; [reflexivity|].
  rewrite <- app_assoc, (splitlines_from_line Hu), (splitlines_from_sep _ _ Hsep).
  simpl. now rewrite IH.
Qed.

Lemma splitlines_joined (sep : str) (lines : list str) :
  sep = [LF] \/ sep = [CR; LF] ->
  Forall (fun u => u <> [] /\ Forall (fun c => is_linebreak c = false) u)
         lines ->
  splitlines (join sep lines) = lines.
Proof.
  intros Hsep. unfold splitlines.
  induction 1 as [|u lines [Hne Hu] Hrest IH]; [reflexivity|].
  destruct lines as [|v lines].
  - simpl. rewrite <- (app_nil_r u) at 1.
    rewrite (splitlines_from_line Hu). simpl. now destruct u.
  - change (join sep (u :: v :: lines)) with (u ++ sep ++ join sep (v :: lines)).
    rewrite (splitlines_from_line Hu), (splitlines_from_sep _ _ Hsep).
    simpl app. now rewrite IH.
Qed.

(** X14.  A file whose name ends in .txt, in any letter case, and whose text
    is a list of URLs, one on each line, reads back as that list: with line
    feeds or with carriage return and line feed between the lines, and with
    or without a break after the last line. *)
Theorem read_text_round_trip (R : Readers) (stem ext : str)
  (data : list Byte.byte) (sep : str) (urls : list str) :
  lower ext = lit ".txt" ->
  sep = [LF] \/ sep = [CR; LF] ->
  Forall (fun u => u <> [] /\ strip u = u /\
                   Forall (fun c => is_linebreak c = false) u) urls ->
  decode_utf8_ignore R data = join sep urls \/
  decode_utf8_ignore R data = concat (map (fun u => u ++ sep) urls) ->
  read_urls_from_upload R {| file_name := stem ++ ext; file_data := data |}
  = Ok urls.
Proof.
  intros Hext Hsep Hurls Htext. unfold read_urls_from_upload. simpl.
  rewrite lower_app, Hext, endswith_app.
  assert (Hlines : splitlines (decode_utf8_ignore R data) = urls).
  { destruct Htext as [-> | ->].
    - apply splitlines_joined; [assumption|].
      eapply Forall_impl; [|exact Hurls]. simpl. tauto.
    - apply splitlines_terminated; [assumption|].
      eapply Forall_impl; [|exact Hurls]. simpl. tauto. }
  rewrite Hlines, stripped_nonempty_fixed; [reflexivity|].
  eapply Forall_impl; [|exact Hurls]. simpl. tauto.
Qed.

Lemma read_text_round_trip_witness :
  lower (lit ".TXT") = lit ".txt" /\
  read_urls_from_upload UploadFixture.readers UploadFixture.text_file
  = Ok [lit "http://a/"; lit "http://b/"].
Proof.
  split; [reflexivity|].
  apply (@read_text_round_trip UploadFixture.readers (lit "List") (lit ".TXT")
           (file_data UploadFixture.text_file) [CR; LF]
           [lit "http://a/"; lit "http://b/"]).
  - reflexivity.
  - now right.
  - repeat constructor; try discriminate; vm_compute; reflexivity.
  - right. vm_compute. reflexivity.
Defined.

(** ** Elements removed by name *)

Lemma has_name_is_tag (nm : str) (t : node) :
  has_name nm t = true -> is_tag t = true.
Proof. now destruct t. Qed.

Lemma has_name_head (nm : str) (a b : node) :
  head a = head b -> has_name nm a = has_name nm b.
Proof. unfold has_name. now intros [= _ -> _]. Qed.

(** One round of the loop of [remove_tags]. *)
Lemma name_round (nm : str) (body : node) :
  let body' :=
    fold_left (fun b t => decompose t b) (find_all nm body) body in
  remains body body' /\
  forall d, In d (descendants body') -> has_name nm d = false.
Proof.
  intro body'.
  destruct (decompose_loop (fun _ => true) (find_all nm body) body)
    as [Hrem Hout].
  change (fold_left _ (find_all nm body) body) with body' in Hrem, Hout.
  split; [exact Hrem|].
  intros d Hd. destruct (has_name nm d) eqn:Hn; [exfalso | reflexivity].
  pose proof (has_name_is_tag _ _ Hn) as Hd_tag.
  destruct Hrem as [_ Hrem]. destruct (Hrem d Hd Hd_tag) as (d0 & Hd0 & Hh).
  assert (Hn0 : has_name nm d0 = true) by now rewrite (has_name_head nm Hh).
  apply (Hout d0) with (d := d); try assumption.
  - apply filter_In. now split.
  - reflexivity.
  - now apply has_name_is_tag in Hn0.
  - injection Hh as Huid _ _. congruence.
Qed.

Lemma remains_keeps_out (nm : str) (a b : node) :
  remains a b ->
  (forall d, In d (descendants a) -> has_name nm d = false) ->
  forall d, In d (descendants b) -> has_name nm d = false.
Proof.
  intros [_ Hrem] Ha d Hd.
  destruct (has_name nm d) eqn:Hn; [|reflexivity].
  destruct (Hrem d Hd (has_name_is_tag _ _ Hn)) as (d0 & Hd0 & Hh).
  rewrite <- (has_name_head nm Hh), (Ha d0 Hd0) in Hn. discriminate.
Qed.

Lemma remove_tags_spec (names : list str) :
  forall body d nm,
    In d (descendants (remove_tags names body)) -> In nm names ->
    has_name nm d = false.
Proof.
  unfold remove_tags.
  induction names as [|n names IH]; intros body d nm Hd Hnm; [contradiction|].
  simpl in Hd. destruct Hnm as [<-|Hnm]; [|exact (IH _ d nm Hd Hnm)].
  destruct (name_round n body) as [_ Hout]. cbv zeta in Hout.
  revert d Hd. apply remains_keeps_out with (2 := Hout).
  apply (remove_tags_remains names).
Qed.

(** X15.  Below the body after the removal loops there is no script, style,
    noscript, svg, canvas or iframe element, and no header, footer, nav or
    aside element. *)
Theorem named_elements_removed (body d : node) (nm : str) :
  In d (descendants (clean_body body)) ->
  In nm (non_content_tags ++ layout_tags) ->
  has_name nm d = false.
Proof.
  intros Hd Hnm. revert d Hd. unfold clean_body.
  apply remains_keeps_out
    with (a := remove_tags layout_tags (remove_tags non_content_tags body));
    [apply remove_junk_spec|].
  apply in_app_or in Hnm as [Hnm|Hnm].
  - apply remains_keeps_out with (a := remove_tags non_content_tags body);
      [apply remove_tags_remains|].
    intros d Hd. exact (remove_tags_spec non_content_tags body d nm Hd Hnm).
  - intros d Hd.
    exact (remove_tags_spec layout_tags _ d nm Hd Hnm).
Qed.

Lemma named_elements_removed_witness :
  In (Fixture.elem 6 "p" [Fixture.text "KEEP"])
     (descendants (clean_body Fixture.sample_body)) /\
  In (lit "nav") (non_content_tags ++ layout_tags) /\
  has_name (lit "nav") (Fixture.elem 6 "p" [Fixture.text "KEEP"]) = false.
Proof.
  assert (H1 : In (Fixture.elem 6 "p" [Fixture.text "KEEP"])
                  (descendants (clean_body Fixture.sample_body)))
    by (vm_compute; left; reflexivity).
  assert (H2 : In (lit "nav") (non_content_tags ++ layout_tags))
    by (vm_compute; do 8 right; left; reflexivity).
  split; [exact H1|]. split; [exact H2|].
  exact (@named_elements_removed _ _ _ H1 H2).
Defined.

(** ** The removal loops as one pruning *)

Lemma prune_tag (p : node -> bool) (v : nat) (nm : str)
  (a : list (str * attr_value)) (cs : list node) :
  prune p (Tag v nm a cs) = Tag v nm a (prune_list p cs).
Proof. reflexivity. Qed.

Lemma prune_head (p : node -> bool) (n : node) : head (prune p n) = head n.
Proof. now destruct n. Qed.

Lemma in_self (n : node) : In n (self_and_descendants n).
Proof. destruct n; now left. Qed.

Lemma in_below (d n : node) :
  In d (descendants n) -> In d (self_and_descendants n).
Proof. destruct n; simpl; try contradiction. now right. Qed.

Lemma detach_prune (u : nat) (n : node) : detach u n = prune (is_object u) n.
Proof.
  induction n as [s|s|v nm a cs IHcs] using node_induction;
    try reflexivity.
  rewrite detach_tag, prune_tag. f_equal.
  induction IHcs as [|c cs Hc _ IH]; simpl; [reflexivity|].
  destruct (is_object u c); [exact IH | now rewrite Hc, IH].
Qed.

Lemma prune_ext_in (p q : node -> bool) (n : node) :
  (forall c, In c (descendants n) -> p c = q c) -> prune p n = prune q n.
Proof.
  induction n as [s|s|v nm a cs IHcs] using node_induction;
    try reflexivity.
  intro H. rewrite !prune_tag. f_equal.
  unfold descendants in H. simpl contents in H.
  induction IHcs as [|c cs Hc _ IH]; simpl; [reflexivity|].
  assert (Hpc : p c = q c).
  { apply H. simpl. apply in_or_app. left. apply in_self. }
  assert (Hrest : prune_list p cs = prune_list q cs).
  { apply IH. intros d Hd. apply H. simpl. apply in_or_app. now right. }
  rewrite Hpc, Hrest. destruct (q c); [reflexivity|]. f_equal.
  apply Hc. intros d Hd. apply H. simpl. apply in_or_app. left.
  now apply in_below.
Qed.

Lemma prune_ext (p q : node -> bool) (n : node) :
  (forall c, p c = q c) -> prune p n = prune q n.
Proof. intro H. apply prune_ext_in. intros c _. apply H. Qed.

Lemma prune_none (n : node) : prune (fun _ => false) n = n.
Proof.
  induction n as [s|s|v nm a cs IHcs] using node_induction;
    try reflexivity.
  rewrite prune_tag. f_equal.
  induction IHcs as [|c cs Hc _ IH]; simpl; [reflexivity|].
  now rewrite Hc, IH.
Qed.

Lemma prune_prune (p q : node -> bool) (n : node) :
  head_based q ->
  prune q (prune p n) = prune (fun t => p t || q t) n.
Proof.
  intro Hq.
  induction n as [s|s|v nm a cs IHcs] using node_induction;
    try reflexivity.
  rewrite !prune_tag. f_equal.
  induction IHcs as [|c cs Hc _ IH]; simpl; [reflexivity|].
  destruct (p c) eqn:Hpc; simpl; [exact IH|].
  rewrite (Hq (prune p c) c (prune_head p c)).
  destruct (q c); [exact IH | now rewrite Hc, IH].
Qed.

Lemma same_object_head (t : node) : head_based (same_object t).
Proof.
  intros a b Hh. unfold same_object. destruct (tag_uid t); [|reflexivity].
  injection Hh as Hu _ _. destruct a, b; simpl in *; congruence.
Qed.

Lemma found_test_head (guard : node -> bool) (found : list node) :
  head_based
    (fun c => existsb (fun t => guard t && same_object t c) found).
Proof.
  intros a b Hh. induction found as [|t found IH]; simpl; [reflexivity|].
  now rewrite (same_object_head t Hh), IH.
Qed.

(** A loop of [decompose] calls is one pruning: of the objects found that
    pass the test. *)
Lemma decompose_loop_prune (guard : node -> bool) (found : list node) :
  forall body,
    fold_left (fun b t => if guard t then decompose t b else b) found body =
    prune (fun c => existsb (fun t => guard t && same_object t c) found) body.
Proof.
  induction found as [|t found IH]; intro body; simpl.
  - now rewrite prune_none.
  - rewrite IH. destruct (guard t) eqn:Hg; simpl.
    + unfold decompose, same_object at 2.
      destruct (tag_uid t) as [u|]; [|reflexivity].
      rewrite detach_prune. apply prune_prune, found_test_head.
    + reflexivity.
Qed.

Lemma subseq_In {A : Type} (a b : list A) (x : A) :
  subseq a b -> In x a -> In x b.
Proof.
  induction 1 as [|y a b _ IH|y a b _ IH]; simpl; [tauto | auto |].
  intros [->|H]; auto.
Qed.

Lemma subseq_NoDup {A : Type} (a b : list A) :
  subseq a b -> NoDup b -> NoDup a.
Proof.
  induction 1 as [|y a b _ IH|y a b Hab IH]; intro Hb; [exact Hb | |].
  - inversion Hb; auto.
  - inversion Hb as [|? ? Hy Hb']; subst. constructor; [|auto].
    intro Hin. apply Hy. eapply subseq_In; eassumption.
Qed.

Lemma subseq_skip_app {A : Type} (pre a b : list A) :
  subseq a b -> subseq a (pre ++ b).
Proof. intro H. induction pre; simpl; [exact H | now constructor]. Qed.

Lemma uids_in_cons (c : node) (l : list node) :
  uids_in (c :: l) = uids_in [c] ++ uids_in l.
Proof.
  unfold uids_in. simpl. now rewrite app_nil_r, flat_map_app.
Qed.

Lemma uids_in_tag (v : nat) (nm : str) (a : list (str * attr_value))
  (cs : list node) :
  uids_in [Tag v nm a cs] = v :: uids_in cs.
Proof. unfold uids_in. simpl. now rewrite app_nil_r. Qed.

Lemma uids_prune_list (p : node -> bool) (l : list node) :
  subseq (uids_in (prune_list p l)) (uids_in l).
Proof.
  assert (Hnode : forall c, subseq (uids_in [prune p c]) (uids_in [c])).
  { induction c as [s|s|v nm a cs IHcs] using node_induction;
      try apply subseq_refl.
    rewrite prune_tag, !uids_in_tag. apply subseq_keep.
    induction IHcs as [|c cs Hc _ IH]; simpl; [apply subseq_refl|].
    rewrite (uids_in_cons c cs). destruct (p c).
    - now apply subseq_skip_app.
    - rewrite uids_in_cons. now apply subseq_app. }
  induction l as [|c l IH]; simpl; [apply subseq_refl|].
  rewrite (uids_in_cons c l). destruct (p c).
  - now apply subseq_skip_app.
  - rewrite uids_in_cons. apply subseq_app; [apply Hnode | exact IH].
Qed.

Lemma prune_NoDup (p : node -> bool) (n : node) :
  NoDup (uids n) -> NoDup (uids (prune p n)).
Proof.
  apply subseq_NoDup. unfold uids.
  destruct n as [s|s|v nm a cs]; try apply subseq_refl.
  rewrite prune_tag. apply uids_prune_list.
Qed.

(** Among nodes whose elements are distinct objects, an identity names
    one node. *)
Lemma same_uid_same_node (l : list node) (a b : node) (u : nat) :
  NoDup (flat_map (fun t => match tag_uid t with
                            | Some u => [u]
                            | None => []
                            end) l) ->
  In a l -> In b l -> tag_uid a = Some u -> tag_uid b = Some u -> a = b.
Proof.
  induction l as [|x l IH]; intros Hnd Ha Hb Hua Hub; [contradiction|].
  simpl in Hnd.
  assert (Hin : forall c, In c l -> tag_uid c = Some u ->
                          In u (flat_map (fun t => match tag_uid t with
                                                   | Some u => [u]
                                                   | None => []
                                                   end) l)).
  { intros c Hc Huc. apply in_flat_map. exists c. split; [exact Hc|].
    rewrite Huc. now left. }
  destruct Ha as [->|Ha], Hb as [->|Hb]; [reflexivity | | |].
  - rewrite Hua in Hnd. inversion Hnd as [|? ? Hnot _]; subst.
    exfalso. apply Hnot. now apply (Hin b).
  - rewrite Hub in Hnd. inversion Hnd as [|? ? Hnot _]; subst.
    exfalso. apply Hnot. now apply (Hin a).
  - apply IH; try assumption. now apply NoDup_app_remove_l in Hnd.
Qed.

(** The test of [decompose_loop_prune], for the list a search returns on a
    tree of distinct objects: the node is one the search selects, and it
    passes the test. *)
Lemma found_test (sel guard : node -> bool) (body c : node) :
  (forall t, sel t = true -> is_tag t = true) ->
  NoDup (uids body) ->
  In c (descendants body) ->
  existsb (fun t => guard t && same_object t c)
          (filter sel (descendants body))
  = sel c && guard c.
Proof.
  intros Hsel Hnd Hc. apply eq_iff_eq_true.
  rewrite existsb_exists, andb_true_iff. split.
  - intros (t & Ht & Hgt). apply filter_In in Ht as [Ht Hst].
    apply andb_true_iff in Hgt as [Hg Hsame].
    unfold same_object in Hsame.
    destruct (tag_uid t) as [u|] eqn:Hut; [|discriminate].
    apply is_object_uid in Hsame.
    assert (t = c) as <-; [|now split].
    now apply (same_uid_same_node (descendants body) t c (u := u)).
  - intros [Hs Hg]. exists c. split; [now apply filter_In|].
    rewrite Hg. simpl. unfold same_object.
    pose proof (Hsel c Hs) as Htag. destruct c; try discriminate.
    simpl. apply Nat.eqb_refl.
Qed.

(** One loop over what a search found, on a tree of distinct objects. *)
Lemma search_loop_prune (sel guard : node -> bool) (body : node) :
  (forall t, sel t = true -> is_tag t = true) ->
  NoDup (uids body) ->
  fold_left (fun b t => if guard t then decompose t b else b)
            (filter sel (descendants body)) body
  = prune (fun c => sel c && guard c) body.
Proof.
  intros Hsel Hnd. rewrite decompose_loop_prune. apply prune_ext_in.
  intros c Hc. now apply found_test.
Qed.

Lemma names_test_head (names : list str) :
  head_based (fun c => existsb (fun nm => has_name nm c) names).
Proof.
  intros a b Hh. induction names as [|n names IH]; simpl; [reflexivity|].
  now rewrite (has_name_head n Hh), IH.
Qed.

Lemma remove_tags_prune (names : list str) :
  forall body,
    NoDup (uids body) ->
    remove_tags names body =
    prune (fun c => existsb (fun nm => has_name nm c) names) body.
Proof.
  unfold remove_tags.
  induction names as [|nm names IH]; intros body Hnd; simpl.
  - now rewrite prune_none.
  - assert (Hround : fold_left (fun b t => decompose t b) (find_all nm body)
                       body = prune (has_name nm) body).
    { change (fold_left (fun b t => decompose t b) (find_all nm body) body)
        with (fold_left (fun b t => if (fun _ => true) t then decompose t b
                                    else b)
                (filter (has_name nm) (descendants body)) body).
      rewrite search_loop_prune;
        [|intros t; apply has_name_is_tag | exact Hnd].
      apply prune_ext. intro c. apply andb_true_r. }
    rewrite Hround, IH by now apply prune_NoDup.
    apply prune_prune, names_test_head.
Qed.

Lemma junk_round_prune (attr : str) (pattern : str -> bool) (body : node) :
  NoDup (uids body) ->
  fold_left
    (fun b t => if negb (has_name (lit "body") t) then decompose t b else b)
    (find_all_attrs attr pattern body) body
  = prune (fun c => is_tag c && matches (attrs_get attr (tag_attrs c)) pattern
                    && negb (has_name (lit "body") c)) body.
Proof.
  intro Hnd. unfold find_all_attrs.
  apply (search_loop_prune
           (fun t => is_tag t && matches (attrs_get attr (tag_attrs t)) pattern)
           (fun t => negb (has_name (lit "body") t))); [|exact Hnd].
  intros t Ht. now apply andb_true_iff in Ht as [Ht _].
Qed.

Lemma junk_test_head (attr : str) (pattern : str -> bool) :
  head_based (fun c => is_tag c && matches (attrs_get attr (tag_attrs c)) pattern
                       && negb (has_name (lit "body") c)).
Proof.
  intros a b Hh. rewrite (is_tag_head Hh), (has_name_head (lit "body") Hh).
  injection Hh as _ _ Hattrs. now rewrite Hattrs.
Qed.

Lemma remove_junk_prune (body : node) :
  NoDup (uids body) ->
  remove_junk body =
  prune (fun c =>
           is_tag c
           && matches (attrs_get (lit "id") (tag_attrs c)) (re_search_I id_words)
           && negb (has_name (lit "body") c)
           || is_tag c
              && matches (attrs_get (lit "class") (tag_attrs c))
                   (re_search_I class_words)
              && negb (has_name (lit "body") c)) body.
Proof.
  intro Hnd. rewrite remove_junk_unfold. cbv beta zeta.
  rewrite (@junk_round_prune (lit "id") (re_search_I id_words) body Hnd).
  rewrite junk_round_prune by now apply prune_NoDup.
  apply prune_prune, junk_test_head.
Qed.

(** X16.  On a tree whose elements are distinct objects, the three removal
    loops together take out exactly the removable elements, each with all
    below it, where they stand: no other node is removed, changed or
    moved. *)
Theorem removal_loops_prune (body : node) :
  NoDup (uids body) -> clean_body body = prune removable body.
Proof.
  intro Hnd. unfold clean_body.
  rewrite (@remove_tags_prune non_content_tags body Hnd).
  rewrite remove_tags_prune by now apply prune_NoDup.
  rewrite remove_junk_prune by now do 2 apply prune_NoDup.
  rewrite (@prune_prune _ _ body (names_test_head layout_tags)).
  rewrite prune_prune.
  - apply prune_ext. intro c. unfold removable.
    destruct (existsb (fun nm => has_name nm c) non_content_tags),
      (existsb (fun nm => has_name nm c) layout_tags),
      (is_tag c), (has_name (lit "body") c),
      (matches (attrs_get (lit "id") (tag_attrs c)) (re_search_I id_words)),
      (matches (attrs_get (lit "class") (tag_attrs c))
         (re_search_I class_words)); reflexivity.
  - intros a b Hh.
    now rewrite (junk_test_head (lit "id") (re_search_I id_words) Hh),
      (junk_test_head (lit "class") (re_search_I class_words) Hh).
Qed.

Lemma removal_loops_prune_witness :
  NoDup (uids Fixture.modal_body) /\
  clean_body Fixture.modal_body =
  Tag 2 (lit "body") [(lit "class", AttrList [lit "modal-open"])]
    [ Fixture.elem 3 "p" [Fixture.text "Text"];
      Tag 4 (lit "body") [(lit "class", AttrList [lit "popup"])]
        [Fixture.text "Inner"] ].
Proof.
  assert (H : NoDup (uids Fixture.modal_body)).
  { vm_compute. repeat constructor; simpl; intuition discriminate. }
  split; [exact H|].
  rewrite (@removal_loops_prune Fixture.modal_body H). vm_compute.
  reflexivity.
Defined.

(** ** Text after removal *)

Lemma prune_pieces (p : node -> bool) (n : node) :
  subseq (text_pieces (prune p n)) (text_pieces n).
Proof.
  induction n as [s|s|v nm a cs IHcs] using node_induction;
    try apply subseq_refl.
  rewrite prune_tag. simpl.
  induction IHcs as [|c cs Hc _ IH]; simpl; [constructor|].
  destruct (p c); simpl; [now apply subseq_skip_app | now apply subseq_app].
Qed.

Lemma decompose_loop_pieces (guard : node -> bool) (found : list node)
  (body : node) :
  subseq
    (text_pieces
       (fold_left (fun b t => if guard t then decompose t b else b) found body))
    (text_pieces body).
Proof. rewrite decompose_loop_prune. apply prune_pieces. Qed.

Lemma remove_tags_pieces (names : list str) :
  forall body, subseq (text_pieces (remove_tags names body)) (text_pieces body).
Proof.
  unfold remove_tags.
  induction names as [|nm names IH]; intro body; simpl; [apply subseq_refl|].
  eapply subseq_trans; [apply IH|].
  apply (decompose_loop_pieces (fun _ => true)).
Qed.

(** X17.  The text pieces of the body after the removal loops are pieces
    of the body as parsed, in their order: removal adds no text and moves
    none. *)
Theorem clean_body_pieces (body : node) :
  subseq (text_pieces (clean_body body)) (text_pieces body).
Proof.
  unfold clean_body.
  eapply subseq_trans; [|apply remove_tags_pieces].
  eapply subseq_trans; [|apply remove_tags_pieces].
  rewrite remove_junk_unfold. cbv beta zeta.
  eapply subseq_trans; apply decompose_loop_pieces.
Qed.

(** ** What the patterns match *)

Lemma match_here_spec (word : str) :
  forall s, match_here word s = true <->
            exists mid post, s = mid ++ post /\ map casefold mid = word.
Proof.
  induction word as [|a word IH]; intro s; simpl.
  - split; [|reflexivity]. intros _. now exists [], s.
  - destruct s as [|c s].
    + split; [discriminate|]. intros (mid & post & H & Hm).
      destruct mid; discriminate.
    + rewrite andb_true_iff, N.eqb_eq, IH. split.
      * intros (<- & mid & post & -> & <-). now exists (c :: mid), post.
      * intros (mid & post & H & Hm). destruct mid as [|d mid]; [discriminate|].
        injection H as <- ->. injection Hm as <- <-.
        split; [reflexivity|]. now exists mid, post.
Qed.

Lemma search_word_spec (word : str) :
  forall s, search_word word s = true <->
            exists pre mid post,
              s = pre ++ mid ++ post /\ map casefold mid = word.
Proof.
  induction s as [|c s IH].
  - simpl. rewrite orb_false_r, match_here_spec. split.
    + intros (mid & post & H & Hm). now exists [], mid, post.
    + intros (pre & mid & post & H & Hm). symmetry in H.
      apply app_eq_nil in H as [-> H]. now exists mid, post.
  - change (search_word word (c :: s))
      with (match_here word (c :: s) || search_word word s).
    rewrite orb_true_iff, match_here_spec, IH. split.
    + intros [(mid & post & H & Hm)|(pre & mid & post & H & Hm)].
      * now exists [], mid, post.
      * exists (c :: pre), mid, post. now rewrite H.
    + intros (pre & mid & post & H & Hm). destruct pre as [|d pre].
      * left. now exists mid, post.
      * right. injection H as <- ->. now exists pre, mid, post.
Qed.

(** X18.  A compiled pattern finds a match in a string exactly when, letter
    case set aside, one of its words is a run of neighbouring characters of
    the string. *)
Theorem re_search_I_spec (words : list str) (s : str) :
  re_search_I words s = true <->
  exists word pre mid post,
    In word words /\ s = pre ++ mid ++ post /\ map casefold mid = word.
Proof.
  unfold re_search_I. rewrite existsb_exists. split.
  - intros (word & Hin & H). apply search_word_spec in H
      as (pre & mid & post & H & Hm).
    now exists word, pre, mid, post.
  - intros (word & pre & mid & post & Hin & H & Hm).
    exists word. split; [exact Hin|]. apply search_word_spec.
    now exists pre, mid, post.
Qed.

Lemma re_search_I_spec_witness :
  re_search_I id_words (lit "top-COOKIE_bar") = true.
Proof.
  apply (proj2 (re_search_I_spec id_words (lit "top-COOKIE_bar"))).
  exists (lit "cookie"), (lit "top-"), (lit "COOKIE"), (lit "_bar").
  split; [now left|]. split; reflexivity.
Defined.

(** A run of characters without a space, found in values joined by spaces,
    lies in one of the values. *)
Lemma infix_of_join (l : list str) :
  forall pre mid post,
    join [SP] l = pre ++ mid ++ post -> mid <> [] -> ~ In SP mid ->
    exists x pre' post', In x l /\ x = pre' ++ mid ++ post'.
Proof.
  induction l as [|x r IH]; intros pre mid post Hj Hne Hsp.
  - simpl in Hj. symmetry in Hj. apply app_eq_nil in Hj as [_ Hj].
    apply app_eq_nil in Hj as [Hj _]. contradiction.
  - destruct r as [|y r'].
    + simpl in Hj. exists x, pre, post. split; [now left | exact Hj].
    + change (join [SP] (x :: y :: r'))
        with (x ++ SP :: join [SP] (y :: r')) in Hj.
      apply app_eq_app in Hj as [k [[Hx Hm]|[Hpre Hm]]].
      * apply app_eq_app in Hm as [k2 [[Hmid Hrest]|[Hk Hpost]]].
        -- destruct k2 as [|c k2].
           ++ rewrite app_nil_r in Hmid. subst k.
              exists x, pre, []. split; [now left|].
              now rewrite app_nil_r.
           ++ injection Hrest as <- _. exfalso. apply Hsp. rewrite Hmid.
              apply in_or_app. right. now left.
        -- exists x, pre, k2. split; [now left|]. now rewrite Hx, Hk.
      * destruct k as [|c k].
        -- simpl in Hm. destruct mid as [|c mid]; [contradiction|].
           injection Hm as <- _. exfalso. apply Hsp. now left.
        -- injection Hm as _ Hm.
           destruct (IH k mid post Hm Hne Hsp) as (x' & pre' & post' & Hin & Hx').
           exists x', pre', post'. split; [now right | exact Hx'].
Qed.

Lemma joined_match (words : list str) (l : list str) :
  Forall (fun w => w <> [] /\ ~ In SP w) words ->
  re_search_I words (join [SP] l) = true ->
  existsb (re_search_I words) l = true.
Proof.
  intros Hwords H.
  apply re_search_I_spec in H as (word & pre & mid & post & Hin & Hj & Hm).
  rewrite Forall_forall in Hwords. destruct (Hwords word Hin) as [Hne Hsp].
  destruct (@infix_of_join l pre mid post Hj) as (x & pre' & post' & Hx & Hxe).
  - intros ->. now apply Hne.
  - intro Hc. apply Hsp. rewrite <- Hm. apply in_map_iff.
    exists SP. split; [reflexivity | exact Hc].
  - apply existsb_exists. exists x. split; [exact Hx|].
    apply re_search_I_spec. now exists word, pre', mid, post'.
Qed.

(** X19.  By its [class], an element matches the pattern exactly when one
    of its classes holds one of the words; by its [id], when the [id] does.
    An element without the attribute never matches. *)
Theorem junk_match_spec (attrs : list (str * attr_value)) :
  (forall l, attrs_get (lit "class") attrs = Some (AttrList l) ->
             matches (attrs_get (lit "class") attrs) (re_search_I class_words)
             = existsb (re_search_I class_words) l) /\
  (forall s, attrs_get (lit "id") attrs = Some (AttrStr s) ->
             matches (attrs_get (lit "id") attrs) (re_search_I id_words)
             = re_search_I id_words s) /\
  (forall attr pattern, attrs_get attr attrs = None ->
                        matches (attrs_get attr attrs) pattern = false).
Proof.
  split; [|split].
  - intros l ->. cbv beta iota delta [matches].
    destruct (existsb (re_search_I class_words) l) eqn:He; [reflexivity|].
    rewrite orb_false_l.
    destruct (re_search_I class_words (join [SP] l)) eqn:Hj; [|reflexivity].
    rewrite <- He. symmetry. apply joined_match; [|exact Hj].
    repeat constructor; try discriminate;
      simpl; intuition discriminate.
  - now intros s ->.
  - now intros attr pattern ->.
Qed.

Lemma junk_match_spec_witness :
  attrs_get (lit "class")
    [(lit "class", AttrList [lit "x"; lit "Cookie-Bar"])]
  = Some (AttrList [lit "x"; lit "Cookie-Bar"]) /\
  matches (attrs_get (lit "class")
             [(lit "class", AttrList [lit "x"; lit "Cookie-Bar"])])
          (re_search_I class_words) = true.
Proof.
  split; [reflexivity|].
  rewrite (proj1 (junk_match_spec
                    [(lit "class", AttrList [lit "x"; lit "Cookie-Bar"])])
             [lit "x"; lit "Cookie-Bar"] eq_refl).
  vm_compute. reflexivity.
Defined.

(** ** The title *)

Lemma clean_head (p : str) :
  strip p = p ->
  match p with [] => True | c :: _ => isspace c = false end.
Proof.
  intro H. rewrite <- H. unfold strip. apply rstrip_head, lstrip_head.
Qed.

Lemma clean_last (p front : str) (c : char) :
  strip p = p -> p = front ++ [c] -> isspace c = false.
Proof.
  intros H Hp. rewrite <- H in Hp. unfold strip in Hp.
  now apply rstrip_last in Hp.
Qed.

Lemma join_last (sep : str) (pieces : list str) (front : str) (c : char) :
  Forall (fun p => p <> [] /\ strip p = p) pieces ->
  join sep pieces = front ++ [c] -> isspace c = false.
Proof.
  intro H. revert front.
  induction H as [|p pieces [Hne Hp] Hrest IH]; intros front Hj.
  - now destruct front.
  - destruct pieces as [|q pieces].
    + simpl in Hj. eapply clean_last; eassumption.
    + change (join sep (p :: q :: pieces))
        with (p ++ sep ++ join sep (q :: pieces)) in Hj.
      assert (Hq : join sep (q :: pieces) <> []).
      { inversion Hrest as [|? ? [Hqne _] _]; subst.
        destruct pieces; simpl; [exact Hqne|]. now destruct q. }
      destruct (exists_last Hq) as (front' & c' & Hlast).
      rewrite Hlast, !app_assoc in Hj.
      apply app_inj_tail in Hj as [_ <-]. now apply (IH front').
Qed.

Lemma join_clean (sep : str) (pieces : list str) :
  Forall (fun p => p <> [] /\ strip p = p) pieces ->
  strip (join sep pieces) = join sep pieces.
Proof.
  intro H. unfold strip. rewrite lstrip_fixed.
  - apply rstrip_fixed. intros front c Hj. eapply join_last; eassumption.
  - destruct H as [|p pieces [Hne Hp] _]; [exact I|].
    pose proof (@clean_head p Hp) as Hh.
    destruct p as [|c p]; [contradiction|].
    now destruct pieces.
Qed.

Lemma pieces_of_contents (l : list node) :
  Forall (fun p => p <> [] /\ strip p = p) (flat_map text_pieces l).
Proof.
  induction l as [|c l IH]; simpl; [constructor|].
  apply Forall_app. split; [apply text_pieces_trimmed | exact IH].
Qed.

(** X20.  The title has no whitespace at either end, and is empty when the
    document has no title element. *)
Theorem soup_title_trimmed (soup : node) :
  strip (soup_title soup) = soup_title soup /\
  (find (lit "title") soup = None -> soup_title soup = []).
Proof.
  unfold soup_title. split.
  - destruct (find (lit "title") soup) as [t|]; [|reflexivity].
    destruct (get_text [] true t); [reflexivity|].
    unfold get_text. rewrite all_strings_pieces.
    apply join_clean, pieces_of_contents.
  - now intros ->.
Qed.

Lemma soup_title_trimmed_witness :
  find (lit "title") Fixture.overlay_doc = None /\
  soup_title Fixture.overlay_doc = [].
Proof.
  split; [reflexivity|].
  exact (proj2 (soup_title_trimmed Fixture.overlay_doc) eq_refl).
Defined.

(** ** Extraction and the batch *)

Lemma normal_form_nil : normal_form [].
Proof.
  unfold normal_form, has_infix. split; [intros []|]. split; [intros []|].
  split; [intros (l1 & l2 & H); destruct l1; discriminate|].
  split; [intros (l1 & l2 & H); destruct l1; discriminate|]. reflexivity.
Qed.

Lemma extract_from_soup_normal (soup : node) :
  normal_form (snd (extract_from_soup soup)).
Proof.
  unfold extract_from_soup.
  destruct (find (lit "body") soup); apply normalize_whitespace_normal.
Qed.

Section MoreBatchFacts.

Context {World : Type} (E : Externals World) (cfg : Settings).

Lemma try_block_text (url : str) (w : World) (row : ResultRow) :
  fst (try_block E cfg url w) = Ok row -> normal_form (body_text row).
Proof.
  unfold try_block.
  destruct (fetch_url E url (timeout cfg) (user_agent cfg) w)
    as [[[[code final] html]|e] w']; simpl; [|discriminate].
  unfold extract_body_text.
  destruct (BeautifulSoup E html) as [soup|e]; simpl; [|discriminate].
  destruct (extract_from_soup soup) as [ttl body] eqn:Hx. simpl.
  intros [= <-]. simpl.
  pose proof (extract_from_soup_normal soup) as H. now rewrite Hx in H.
Qed.

(** X21.  In every row of a batch, [body_text] is in normal form: no
    carriage return or tab, no two spaces or three line feeds in a row, no
    whitespace at either end. *)
Theorem rows_text_normal (urls : list str) (w : World) (row : ResultRow) :
  In row (fst (run_batch E cfg urls w)) -> normal_form (body_text row).
Proof.
  intro Hin.
  destruct (run_batch_row_origin E cfg urls w row Hin)
    as (pre & url & post & _ & ->).
  destruct (fst (attempt_at E cfg (length urls) pre url w)) as [r|e] eqn:Ha;
    simpl.
  - eapply try_block_text; eassumption.
  - apply normal_form_nil.
Qed.

(** X22.  Where the fetch of a URL returns a response, whatever its status
    code, and the parser a tree, the row of that URL holds the URL, the
    final URL and status of the response, the title and text extracted
    from the tree, the length of that text, and no error. *)
Theorem fetched_page_row (pre post : list str) (url : str) (w : World)
  (code : Z) (final html : str) (soup : node) :
  fst (fetch_url E url (timeout cfg) (user_agent cfg)
         (world_before E cfg (length (pre ++ url :: post)) pre url w))
  = Ok (code, final, html) ->
  BeautifulSoup E html = Ok soup ->
  nth_error (fst (run_batch E cfg (pre ++ url :: post) w)) (length pre) =
  Some {| input_url := url;
          final_url := final;
          http_status := CInt code;
          title := fst (extract_from_soup soup);
          body_text := snd (extract_from_soup soup);
          body_len_chars := len (snd (extract_from_soup soup));
          error := [] |}.
Proof.
  intros Hfetch Hparse. rewrite run_batch_nth. f_equal.
  unfold attempt_at, try_block.
  destruct (fetch_url E url (timeout cfg) (user_agent cfg) _) as [r w'].
  simpl in Hfetch. subst r. simpl.
  unfold extract_body_text. rewrite Hparse. simpl.
  now destruct (extract_from_soup soup).
Qed.


End MoreBatchFacts.

(** ** The further properties on the samples *)

Lemma normalize_whitespace_trimmed_witness :
  normalize_whitespace (lit "  a b  ") = lit "a b" /\
  isspace 97%N = false /\ isspace 98%N = false.
Proof.
  assert (H : normalize_whitespace (lit "  a b  ") = lit "a b")
    by (vm_compute; reflexivity).
  split; [exact H|]. split.
  - exact (proj1 (normalize_whitespace_trimmed (lit "  a b  ")) 97%N
             (lit " b") H).
  - exact (proj2 (normalize_whitespace_trimmed (lit "  a b  ")) (lit "a ")
             98%N H).
Defined.

Lemma dedupe_same_urls_witness :
  In (lit "http://b")
     (dedupe [lit "http://a"; lit "http://b"; lit "http://a"]).
Proof.
  apply (proj2 (proj2 (dedupe_same_urls
                         [lit "http://a"; lit "http://b"; lit "http://a"])
                  (lit "http://b"))).
  right. left. reflexivity.
Defined.

Lemma rows_text_normal_witness :
  let row := success_row (lit "http://a/") (lit "http://a/home") 200
               (lit "Sample  page") (lit "KEEP") in
  In row (fst (run_batch Fixture.world Fixture.settings Fixture.urls 0%nat)) /\
  normal_form (lit "KEEP").
Proof.
  intro row.
  assert (Hin : In row (fst (run_batch Fixture.world Fixture.settings
                               Fixture.urls 0%nat)))
    by (vm_compute; left; reflexivity).
  split; [exact Hin|].
  exact (@rows_text_normal _ Fixture.world Fixture.settings Fixture.urls
           0%nat row Hin).
Defined.

Lemma fetched_page_row_witness :
  fst (fetch_url Fixture.world (lit "http://gone/") 25 (lit "Mozilla/5.0")
         2%nat)
  = Ok (404%Z, lit "http://gone/", lit "frames") /\
  BeautifulSoup Fixture.world (lit "frames") = Ok Fixture.frames_doc /\
  nth_error (fst (run_batch Fixture.world Fixture.settings Fixture.urls 0%nat))
    2
  = Some {| input_url := lit "http://gone/";
            final_url := lit "http://gone/";
            http_status := CInt 404;
            title := lit "Frames";
            body_text := lit "Frames" ++ [LF] ++ lit "Please upgrade";
            body_len_chars := 21;
            error := [] |}.
Proof.
  split; [reflexivity|]. split; [reflexivity|].
  exact (@fetched_page_row _ Fixture.world Fixture.settings
           [lit "http://a/"; lit "http://down/"] [lit "http://odd/"]
           (lit "http://gone/") 0%nat 404%Z (lit "http://gone/")
           (lit "frames") Fixture.frames_doc eq_refl eq_refl).
Defined.


(** * Exceptions that leave the loop *)

Lemma enumerate_cons (start : nat) (url : str) (urls : list str) :
  enumerate start (url :: urls) = (start, url) :: enumerate (S start) urls.
Proof. reflexivity. Qed.



Section InterruptibleFacts.

Context {World : Type} (I : Interruptible.Externals World) (cfg : Settings).

Import Interruptible.



(** One turn of the loop, by the way its [try] block ends. *)
Lemma interruptible_loop_cons (total i : nat) (url : str)
  (rest : list (nat * str)) (rows : list ResultRow) (w : World) :
  let w1 := Interruptible.status_write I i total url w in
  let after :=
    Interruptible.pause I cfg
      (Interruptible.progress I i total
         (snd (Interruptible.try_block I cfg url w1))) in
  Interruptible.loop I cfg total ((i, url) :: rest) rows w =
  match fst (Interruptible.try_block I cfg url w1) with
  | Returns row => Interruptible.loop I cfg total rest (rows ++ [row]) after
  | Throws (IsException e) =>
      Interruptible.loop I cfg total rest (rows ++ [failure_row url e]) after
  | Throws (NotException cls msg) =>
      (Throws (NotException cls msg),
       snd (Interruptible.try_block I cfg url w1))
  end.
Proof.
  intros w1 after. unfold after. simpl. fold w1.
  destruct (Interruptible.try_block I cfg url w1) as [[row|[e|cls msg]] w'];
    reflexivity.
Qed.





End InterruptibleFacts.

(** In a world that raises instances of [Exception] only, the loop returns,
    with the rows and the world of [run_batch]. *)
Lemma interruptible_try_block {World : Type} (E : Externals World)
  (cfg : Settings) (url : str) (w : World) :
  Interruptible.try_block (interruptible E) cfg url w =
  (to_ending (fst (try_block E cfg url w)), snd (try_block E cfg url w)).
Proof.
  unfold Interruptible.try_block, try_block, Interruptible.fetch_url,
    fetch_url, Interruptible.extract_body_text, extract_body_text. simpl.
  destruct (requests_get E url _ (timeout cfg) true w) as [[resp|e] w'];
    simpl; [|reflexivity].
  destruct (BeautifulSoup E (Requests.text resp)) as [soup|e]; simpl;
    [|reflexivity].
  now destruct (extract_from_soup soup).
Qed.

Lemma interruptible_loop_from {World : Type} (E : Externals World)
  (cfg : Settings) (total : nat) (urls : list str) :
  forall start rows w,
    Interruptible.loop (interruptible E) cfg total (enumerate start urls)
      rows w =
    (Interruptible.Returns (fst (loop_from E cfg total start urls (rows, w))),
     snd (loop_from E cfg total start urls (rows, w))).
Proof.
  induction urls as [|url urls IH]; intros start rows w; [reflexivity|].
  rewrite enumerate_cons, interruptible_loop_cons, loop_from_cons,
    loop_body_unfold. cbv zeta.
  rewrite interruptible_try_block. simpl.
  destruct (fst (try_block E cfg url (status_write E start total url w)))
    as [row|e]; simpl; apply IH.
Qed.

Lemma interruptible_run_batch {World : Type} (E : Externals World)
  (cfg : Settings) (urls : list str) (w : World) :
  Interruptible.run_batch (interruptible E) cfg urls w =
  (Interruptible.Returns (fst (run_batch E cfg urls w)),
   snd (run_batch E cfg urls w)).
Proof. apply interruptible_loop_from. Qed.

Example interrupted_run :
  Interruptible.run_batch InterruptFixture.world Fixture.settings
    InterruptFixture.urls 0%nat
  = (Interruptible.Throws InterruptFixture.keyboard_interrupt, 3%nat).
Proof. vm_compute. reflexivity. Qed.


